(** * Two-state Metropolis-Hastings demo (w02-04a-mcmc-demo-discrete.ipynb)

    A shallow embedding of the notebook's code cells:
    - cell 2: the analytical posterior ([denom], [posterior_fair],
      [posterior_loaded]);
    - cell 3: [get_alpha];
    - cell 4: the sampling loop that fills [thetas];
    - cell 5: the empirical posterior ([p_loaded], [p_fair]);
    - cells 6-8: the hard-coded transition matrix [P] and the product
      [np.matmul pi_a P].

    Numbers.  The notebook computes with binary64 floats: the likelihoods
    come from [scipy.special.comb], which returns a NumPy scalar, so every
    product, sum and quotient of cells 2 to 4 is a NumPy scalar.  Rounding,
    overflow and underflow are not modelled: a finite float is read as the
    exact rational it denotes ([Q]) together with its sign bit, and [*], [+]
    and [/] are exact.  Division follows NumPy: a zero divisor raises
    nothing (it prints a warning) and gives inf, -inf or nan, which the loop
    then compares like any other value.  A number given as an input is a
    rational; a zero given as an input is read as +0.0.  Equality of
    rationals is [Qeq] ([==]).

    Integers (the state flag 0=fair, 1=loaded, the iteration count) are [Z].

    Randomness.  The process-wide generator behind [np.random] is made
    explicit: a run is given the stream of values that successive calls of
    [np.random.uniform(low=0, high=1)] return, and the loop state carries the
    number of draws consumed so far.  Probabilities are counted: a draw
    being one of [N] equally spaced values of [0, 1), each as likely as the
    others and independent of the other draws, the probability of an
    outcome of a run is the share of the streams of draws that lead to it
    ([prob_within]). *)

From Stdlib Require Import ZArith QArith Qminmax Qabs Qround List Lia Lqa Bool.
Import ListNotations.

Local Open Scope Z_scope.

(** ** Results and floats *)

(** The values of a binary64 quotient that are not numbers. *)
Inductive special : Set :=
| inf
| neg_inf
| nan.

(** What a computation yields: a value or, where a float is computed, a
    special value in place of the number. *)
Inductive result (A : Type) : Type :=
| Ok (a : A)
| NonFinite (s : special).

Arguments Ok {A} a.
Arguments NonFinite {A} s.

Definition bind {A B : Type} (m : result A) (k : A -> result B) : result B :=
  match m with
  | Ok a => k a
  | NonFinite s => NonFinite s
  end.

Notation "x <- m ;; k" := (bind m (fun x => k))
  (at level 61, m at next level, right associativity).

(** A finite float: the rational it denotes and its sign bit, which is what
    tells -0.0 from +0.0. *)
Record float64 : Type := mk_float64 {
  val : Q;
  sign : bool
}.

Definition negative (q : Q) : bool := negb (Qle_bool 0 q).

(** A number given as an input. *)
Definition of_Q (q : Q) : float64 := mk_float64 q (negative q).

Coercion of_Q : Q >-> float64.

(** [x * y]: the sign of a product, zero or not, is the exclusive or of the
    signs. *)
Definition np_mul (x y : float64) : float64 :=
  mk_float64 (val x * val y) (xorb (sign x) (sign y)).

(** [x + y]: a zero sum is -0.0 only when both terms are -0.0. *)
Definition np_add (x y : float64) : float64 :=
  mk_float64 (val x + val y)
    (if Qeq_bool (val x + val y) 0 then sign x && sign y
     else negative (val x + val y)).

(** [x / y] on NumPy scalars: 0/0 is nan, and a non-zero number over a zero
    is an infinity whose sign is the exclusive or of the signs. *)
Definition np_div (x y : float64) : result Q :=
  if Qeq_bool (val y) 0 then
    if Qeq_bool (val x) 0 then NonFinite nan
    else if xorb (sign x) (sign y) then NonFinite neg_inf
    else NonFinite inf
  else Ok (val x / val y)%Q.

(** [alpha >= 1] *)
Definition ge_1 (alpha : result Q) : bool :=
  match alpha with
  | Ok a => Qle_bool 1 a
  | NonFinite inf => true
  | NonFinite neg_inf => false
  | NonFinite nan => false
  end.

(** [u <= alpha] for a number [u] *)
Definition le_alpha (u : Q) (alpha : result Q) : bool :=
  match alpha with
  | Ok a => Qle_bool u a
  | NonFinite inf => true
  | NonFinite neg_inf => false
  | NonFinite nan => false
  end.

(** ** Cell 3: [get_alpha] *)

Definition get_alpha (state : Z)
  (likelihood_fair prior_fair likelihood_loaded prior_loaded : Q) : result Q :=
  if state =? 1 then
    np_div (np_mul likelihood_loaded prior_loaded)
      (np_mul likelihood_fair prior_fair)
  else
    np_div (np_mul likelihood_fair prior_fair)
      (np_mul likelihood_loaded prior_loaded).

(** ** Cell 4: the sampling loop *)

(** The variables the loop reads and writes, and the position in the stream
    of uniform draws. *)
Record loop_state : Type := mk_loop_state {
  state : Z;
  thetas : list Z;
  draws_used : nat
}.

Section Sampler.

(** The four globals of cell 2 that the loop passes to [get_alpha]. *)
Variables likelihood_if_fair prior_fair likelihood_if_loaded prior_loaded : Q.

(** [uniform k] is the value of the [k]-th call of
    [np.random.uniform(low=0, high=1)]. *)
Variable uniform : nat -> Q.

(** Line 141: the proposal. *)
Definition propose (state : Z) : Z :=
  if state =? 0 then 1 else 0.

(** One pass through the body of [for i in range(...)], lines 141-151.
    Each branch appends to [thetas] and fixes the value [proposed_state] has
    when line 151 assigns it to [state]; only the inner [if] calls
    [np.random.uniform].  Nothing in the body raises, so a pass always
    yields a state; it is wrapped in [Ok] so that passes chain with
    [bind]. *)
Definition loop_body (st : loop_state) : result loop_state :=
  let proposed_state := propose (state st) in
  let alpha := get_alpha proposed_state
                 likelihood_if_fair prior_fair
                 likelihood_if_loaded prior_loaded in
  if ge_1 alpha then
    Ok (mk_loop_state proposed_state
          (thetas st ++ [proposed_state]) (draws_used st))
  else
    if le_alpha (uniform (draws_used st)) alpha then
      Ok (mk_loop_state proposed_state
            (thetas st ++ [proposed_state]) (S (draws_used st)))
    else
      let proposed_state := state st in
      Ok (mk_loop_state proposed_state
            (thetas st ++ [state st]) (S (draws_used st))).

(** [k] passes through the body, in order. *)
Fixpoint iterate (k : nat) (st : loop_state) : result loop_state :=
  match k with
  | O => Ok st
  | S k' => st' <- loop_body st ;; iterate k' st'
  end.

(** Lines 138 and 140-151 with the initial state and the iteration count
    as parameters: [thetas = []], then [for i in range(iterations)].
    [range] of a non-positive count is empty. *)
Definition mcmc (iterations : Z) (initial_state : Z) : result loop_state :=
  iterate (Z.to_nat iterations) (mk_loop_state initial_state [] 0).

(** Line 139: [np.random.randint(low=0, high=2, size=1)[0]] is 0 or 1. *)
Definition randint_0_2 (coin : bool) : Z := if coin then 1 else 0.

(** The cell as written: a random initial state and [int(1e4)] passes. *)
Definition mcmc_cell (coin : bool) : result loop_state :=
  mcmc 10000 (randint_0_2 coin).

End Sampler.

(** ** Cell 2: the analytical solution *)

(** [scipy.special.comb(N, k)]: the number of [k]-subsets of [N] things. *)
Fixpoint comb (N k : nat) : nat :=
  match k, N with
  | O, _ => 1%nat
  | S _, O => 0%nat
  | S k', S N' => (comb N' k' + comb N' k)%nat
  end.

Module Notebook.

Local Open Scope Q_scope.

Definition prior_loaded : Q := 0.6.
Definition prior_fair : Q := 1 - 0.6.
Definition likelihood_if_fair : Q :=
  inject_Z (Z.of_nat (comb 5 2)) * 0.5 ^ 5.
Definition likelihood_if_loaded : Q :=
  inject_Z (Z.of_nat (comb 5 2)) * 0.7 ^ 2 * 0.3 ^ 3.

End Notebook.

Section Analytical.

Local Open Scope Q_scope.

Variables likelihood_if_fair prior_fair likelihood_if_loaded prior_loaded : Q.

Definition denom : Q :=
  (likelihood_if_fair * prior_fair) + (likelihood_if_loaded * prior_loaded).

(** The sum [denom] is kept as a number: when it is zero its sign bit does
    not matter to the two quotients below (lemma [denom_sign]). *)
Definition posterior_fair : result Q :=
  np_div (np_mul likelihood_if_fair prior_fair) denom.

Definition posterior_loaded : result Q :=
  np_div (np_mul likelihood_if_loaded prior_loaded) denom.

End Analytical.

(** ** The chain the loop simulates *)

Section Chain.

Local Open Scope Q_scope.

Variables likelihood_if_fair prior_fair likelihood_if_loaded prior_loaded : Q.

(** The function g of the notebook's text, g(theta) = f(x | theta) * f(theta),
    on the flag 0=fair, 1=loaded. *)
Definition g (theta : Z) : Q :=
  if (theta =? 1)%Z then likelihood_if_loaded * prior_loaded
  else likelihood_if_fair * prior_fair.

(** The posterior of cell 2 as a function of the flag. *)
Definition posterior (theta : Z) : result Q :=
  if (theta =? 1)%Z then
    posterior_loaded likelihood_if_fair prior_fair
      likelihood_if_loaded prior_loaded
  else
    posterior_fair likelihood_if_fair prior_fair
      likelihood_if_loaded prior_loaded.

(** The probability with which a chain at [theta] moves to the other flag:
    min(1, alpha), alpha being what the loop asks of [get_alpha]. *)
Definition T (theta : Z) : result Q :=
  alpha <- get_alpha (propose theta)
             likelihood_if_fair prior_fair likelihood_if_loaded prior_loaded ;;
  Ok (Qmin 1 alpha).

End Chain.

(** The transition matrix of a two-state chain that leaves fair with
    probability [T_fair] and loaded with probability [T_loaded]; rows and
    columns in the order fair, loaded, as in [P] below. *)
Definition chain_matrix (T_fair T_loaded : Q) : list (list Q) :=
  [[1 - T_fair; T_fair]; [T_loaded; 1 - T_loaded]]%Q.

(** ** Cell 5: the empirical posterior *)

(** [np.mean] of a boolean array; [None] stands for the nan of an empty one. *)
Definition np_mean (ind : list bool) : option Q :=
  match ind with
  | [] => None
  | _ :: _ =>
      Some (inject_Z (Z.of_nat (length (filter (fun b => b) ind)))
            / inject_Z (Z.of_nat (length ind)))%Q
  end.

Definition p_loaded (thetas : list Z) : option Q :=
  np_mean (map (fun theta => theta =? 1) thetas).

Definition p_fair (thetas : list Z) : option Q :=
  np_mean (map (fun theta => theta =? 0) thetas).

(** ** Cells 6-8: the transition matrix and the stationarity check *)

Fixpoint vec_add (v w : list Q) : list Q :=
  match v, w with
  | x :: v', y :: w' => (x + y)%Q :: vec_add v' w'
  | _, [] => v
  | [], _ => w
  end.

(** [np.matmul v M] for a vector [v] and a matrix [M] given by its rows:
    the sum of the rows of [M] scaled by the entries of [v]. *)
Fixpoint matmul (v : list Q) (M : list (list Q)) : list Q :=
  match v, M with
  | x :: v', row :: M' => vec_add (map (Qmult x) row) (matmul v' M')
  | _, _ => []
  end.

Definition P : list (list Q) := [[0.365; 0.635]; [1; 0]]%Q.
Definition pi_s : list Q := [0.61520; 0.38480]%Q.
Definition pi_a : list Q := [0.61161; 0.38839]%Q.

(** ** The two hypotheses *)

(** The flags the notebook uses: 0=fair, 1=loaded. *)
Definition is_hypothesis (theta : Z) : Prop := theta = 0 \/ theta = 1.

(** Agreement of two numbers up to a tolerance. *)
Definition close_to (tol x y : Q) : Prop := (Qabs (x - y) <= tol)%Q.

(** ** The notebook's numbers in the loop *)

Local Abbreviation nb_g :=
  (g Notebook.likelihood_if_fair Notebook.prior_fair
     Notebook.likelihood_if_loaded Notebook.prior_loaded).
Local Abbreviation nb_alpha theta :=
  (get_alpha theta Notebook.likelihood_if_fair Notebook.prior_fair
     Notebook.likelihood_if_loaded Notebook.prior_loaded).
Local Abbreviation nb_body :=
  (loop_body Notebook.likelihood_if_fair Notebook.prior_fair
     Notebook.likelihood_if_loaded Notebook.prior_loaded).
Local Abbreviation nb_run :=
  (iterate Notebook.likelihood_if_fair Notebook.prior_fair
     Notebook.likelihood_if_loaded Notebook.prior_loaded).
Local Abbreviation nb_mcmc :=
  (mcmc Notebook.likelihood_if_fair Notebook.prior_fair
     Notebook.likelihood_if_loaded Notebook.prior_loaded).

(** Every draw equal to one half. *)
Definition half : nat -> Q := fun _ => 0.5%Q.

(** ** Cell 4 over all streams of draws *)

(** [np.random.uniform(low=0, high=1)] returns a float of [0, 1); the
    floats it can return are equally spaced.  [grid N j] is the [j]-th of
    [N] equally spaced values of [0, 1), and a list of positions below [N]
    is a stream of draws. *)
Definition grid (N j : nat) : Q :=
  (inject_Z (Z.of_nat j) / inject_Z (Z.of_nat N))%Q.

Definition draws_of (N : nat) (l : list nat) : nat -> Q :=
  fun k => grid N (nth k l 0%nat).

(** The [N ^ m] streams of [m] draws. *)
Fixpoint streams (N m : nat) : list (list nat) :=
  match m with
  | O => [[]]
  | S m' => flat_map (fun j => map (cons j) (streams N m')) (seq 0 N)
  end.

(** Whether a run ended with the fraction computed by [p] ([p_loaded] or
    [p_fair] of cell 5) within [eps] of [target]. *)
Definition within (p : list Z -> option Q) (target eps : Q)
  (r : result loop_state) : bool :=
  match r with
  | Ok fin =>
      match p (thetas fin) with
      | Some q => Qle_bool (Qabs (q - target)) eps
      | None => false
      end
  | NonFinite _ => false
  end.

(** The probability, each draw being uniform on the grid and the draws
    independent, that a run of [iterations] passes ends within [eps] of
    [target]: the share of such runs among all streams of [iterations]
    draws (a run of [k] passes makes at most [k] draws). *)
Definition prob_within
  (likelihood_if_fair prior_fair likelihood_if_loaded prior_loaded : Q)
  (N : nat) (iterations initial_state : Z)
  (p : list Z -> option Q) (target eps : Q) : Q :=
  let all := streams N (Z.to_nat iterations) in
  (inject_Z (Z.of_nat (length (filter
     (fun l => within p target eps
                 (mcmc likelihood_if_fair prior_fair likelihood_if_loaded
                    prior_loaded (draws_of N l) iterations initial_state))
     all)))
   / inject_Z (Z.of_nat (length all)))%Q.

(** ** The chain as a law on states and counts *)

(** The definitions that follow describe the two-state chain by its
    probabilities; lemma [total_runs] shows that they give the sums over
    all streams of draws of the runs of the loop. *)

(** The sum of [f] over a list. *)
Fixpoint total {A : Type} (f : A -> Q) (l : list A) : Q :=
  match l with
  | [] => 0%Q
  | x :: l' => (f x + total f l')%Q
  end.

(** The number of loaded samples of a trace. *)
Definition count_loaded (samples : list Z) : nat :=
  length (filter (fun theta => theta =? 1) samples).

Section Law.

Variables likelihood_if_fair prior_fair likelihood_if_loaded prior_loaded : Q.
Variable N : nat.

(** The share of the grid that passes the test [u <= alpha]. *)
Definition accept_share (alpha : result Q) : Q :=
  (inject_Z (Z.of_nat (length (filter
     (fun j => le_alpha (grid N j) alpha) (seq 0 N))))
   / inject_Z (Z.of_nat N))%Q.

(** The probability that a pass from [s] ends at the proposal. *)
Definition move_share (s : Z) : Q :=
  let alpha := get_alpha (propose s) likelihood_if_fair prior_fair
                 likelihood_if_loaded prior_loaded in
  if ge_1 alpha then 1%Q else accept_share alpha.

(** The mean, over the draws, of [phi] of the final state and the number of
    loaded samples after [k] passes from state [s] with [c] loaded samples
    recorded. *)
Fixpoint mean (k : nat) (s : Z) (c : nat) (phi : Z -> nat -> Q) : Q :=
  match k with
  | O => phi s c
  | S k' =>
      (move_share s
       * mean k' (propose s)
           (c + (if (propose s =? 1)%Z then 1 else 0))%nat phi
       + (1 - move_share s)
         * mean k' s (c + (if (s =? 1)%Z then 1 else 0))%nat phi)%Q
  end.

End Law.

(** What [phi] sees of a run: the final state and the number of loaded
    samples. *)
Definition observe (phi : Z -> nat -> Q) (r : result loop_state) : Q :=
  match r with
  | Ok fin => phi (state fin) (count_loaded (thetas fin))
  | NonFinite _ => 0%Q
  end.

(** Whether the fraction [c / n] is within [eps] of [target]. *)
Definition near (n : nat) (target eps : Q) (c : nat) : bool :=
  Qle_bool (Qabs (inject_Z (Z.of_nat c) / inject_Z (Z.of_nat n) - target)) eps.

(** For a chain that leaves fair with probability [a] and loaded with
    probability [b]: the probability that a pass from [x] ends loaded, over
    [a + b]. *)
Definition carry (a b : Q) (x : Z) : Q :=
  if x =? 1 then ((1 - b) / (a + b))%Q else (a / (a + b))%Q.

(** The count of loaded samples after [i] passes, centred: less [i] times
    the stationary share [a / (a + b)], plus the carry of the state. *)
Definition centred (a b : Q) (i : nat) (x : Z) (c : nat) : Q :=
  (inject_Z (Z.of_nat c) - inject_Z (Z.of_nat i) * (a / (a + b))
   + carry a b x)%Q.

(** * Properties *)

(** Closes [~ q == 0] for a closed rational [q]. *)
Ltac nonzero := let H := fresh in intro H; vm_compute in H; discriminate.

(** ** Division and [get_alpha] *)

Arguments np_div : simpl never.
Arguments np_mul : simpl never.
Arguments of_Q : simpl never.

Section Division.

Local Open Scope Q_scope.

Lemma np_div_ok (x y : float64) :
  ~ val y == 0 -> np_div x y = Ok (val x / val y)%Q.
Proof.
  intros Hy. unfold np_div.
  destruct (Qeq_bool (val y) 0) eqn:E; [|reflexivity].
  apply Qeq_bool_iff in E. contradiction.
Qed.

(** The quotient of two products of inputs, the divisor not zero. *)
Lemma np_div_products (a b c d : Q) :
  ~ c * d == 0 ->
  np_div (np_mul a b) (np_mul c d) = Ok (a * b / (c * d))%Q.
Proof. intros H. now rewrite np_div_ok. Qed.

(** The quotient of a product of inputs by a number that is not zero. *)
Lemma np_div_number (a b q : Q) :
  ~ q == 0 -> np_div (np_mul a b) q = Ok (a * b / q)%Q.
Proof. intros H. now rewrite np_div_ok. Qed.

(** 0/0 *)
Lemma np_div_nan (x y : float64) :
  val x == 0 -> val y == 0 -> np_div x y = NonFinite nan.
Proof.
  intros Hx Hy. unfold np_div.
  apply Qeq_bool_iff in Hx, Hy. now rewrite Hy, Hx.
Qed.

Lemma negative_true (q : Q) : negative q = true <-> q < 0.
Proof.
  unfold negative. rewrite negb_true_iff. split.
  - intros H. apply Qnot_le_lt. intros Hle.
    apply Qle_bool_iff in Hle. congruence.
  - intros H. destruct (Qle_bool 0 q) eqn:E; [|reflexivity].
    apply Qle_bool_iff in E. lra.
Qed.

Lemma negative_false (q : Q) : negative q = false <-> 0 <= q.
Proof.
  unfold negative. rewrite negb_false_iff. apply Qle_bool_iff.
Qed.

(** The sign bit of a non-zero product of inputs is the sign of the
    product. *)
Lemma negative_product (x y : Q) :
  ~ x * y == 0 -> xorb (negative x) (negative y) = negative (x * y).
Proof.
  intros Hxy.
  destruct (negative x) eqn:Ex; destruct (negative y) eqn:Ey;
    destruct (negative (x * y)) eqn:Exy; try reflexivity; exfalso;
    repeat match goal with
           | H : negative _ = true |- _ => apply negative_true in H
           | H : negative _ = false |- _ => apply negative_false in H
           end; nra.
Qed.

(** A non-zero product of inputs over a zero sum: an infinity with the sign
    of the product. *)
Lemma np_div_by_zero_sum (a b q : Q) :
  ~ a * b == 0 -> q == 0 ->
  np_div (np_mul a b) q
  = NonFinite (if negative (a * b) then neg_inf else inf).
Proof.
  intros Hab Hq. unfold np_div, np_mul, of_Q. cbn [val sign].
  assert (Hneg : negative q = false) by (apply negative_false; lra).
  apply Qeq_bool_iff in Hq. rewrite Hq.
  destruct (Qeq_bool (a * b) 0) eqn:E;
    [apply Qeq_bool_iff in E; contradiction|].
  rewrite negative_product, Hneg, xorb_false_r by exact Hab.
  destruct (negative (a * b)); reflexivity.
Qed.

(** When the sum [denom] of two products of inputs is zero, the quotient of
    either product by it is the same whether the sum carries the sign bit
    that the float addition gives it or that of +0.0. *)
Lemma denom_sign (a b c d : Q) :
  np_div (np_mul a b) (np_add (np_mul a b) (np_mul c d))
  = np_div (np_mul a b) (a * b + c * d)%Q /\
  np_div (np_mul c d) (np_add (np_mul a b) (np_mul c d))
  = np_div (np_mul c d) (a * b + c * d)%Q.
Proof.
  pose proof negative_product as Hsign.
  unfold np_div, np_add. cbn [val sign np_mul of_Q].
  unfold np_mul, of_Q. cbn [val sign].
  destruct (Qeq_bool (a * b + c * d) 0) eqn:E; [|split; reflexivity].
  apply Qeq_bool_iff in E.
  assert (Hneg : negative (a * b + c * d) = false)
    by (apply negative_false; lra).
  rewrite Hneg.
  destruct (Qeq_bool (a * b) 0) eqn:Eab; destruct (Qeq_bool (c * d) 0) eqn:Ecd;
    try (split; reflexivity).
  - apply Qeq_bool_iff in Eab. apply Qeq_bool_neq in Ecd. exfalso. lra.
  - apply Qeq_bool_iff in Ecd. apply Qeq_bool_neq in Eab. exfalso. lra.
  - apply Qeq_bool_neq in Eab. apply Qeq_bool_neq in Ecd.
    rewrite (Hsign a b Eab), (Hsign c d Ecd).
    destruct (negative (a * b)) eqn:Nab; destruct (negative (c * d)) eqn:Ncd;
      try (split; reflexivity); exfalso;
      repeat match goal with
             | H : negative _ = true |- _ => apply negative_true in H
             | H : negative _ = false |- _ => apply negative_false in H
             end; lra.
Qed.

(** The two ratios and the two posteriors when their divisor is not zero. *)
Lemma get_alpha_1 (lf pf ll pl : Q) :
  ~ lf * pf == 0 -> get_alpha 1 lf pf ll pl = Ok (ll * pl / (lf * pf)).
Proof. intros H. unfold get_alpha. cbn [Z.eqb Pos.eqb]. now apply np_div_products. Qed.

Lemma get_alpha_0 (lf pf ll pl : Q) :
  ~ ll * pl == 0 -> get_alpha 0 lf pf ll pl = Ok (lf * pf / (ll * pl)).
Proof. intros H. unfold get_alpha. cbn [Z.eqb]. now apply np_div_products. Qed.

Lemma posterior_fair_ok (lf pf ll pl : Q) :
  ~ lf * pf + ll * pl == 0 ->
  posterior_fair lf pf ll pl = Ok (lf * pf / (lf * pf + ll * pl)).
Proof. intros H. unfold posterior_fair, denom. now apply np_div_number. Qed.

Lemma posterior_loaded_ok (lf pf ll pl : Q) :
  ~ lf * pf + ll * pl == 0 ->
  posterior_loaded lf pf ll pl = Ok (ll * pl / (lf * pf + ll * pl)).
Proof. intros H. unfold posterior_loaded, denom. now apply np_div_number. Qed.

End Division.

Lemma propose_hypothesis (theta : Z) : is_hypothesis (propose theta).
Proof. unfold propose, is_hypothesis. destruct (theta =? 0); auto. Qed.

Lemma propose_other (theta : Z) :
  is_hypothesis theta -> propose theta = 1 - theta.
Proof. intros [-> | ->]; reflexivity. Qed.

Section Facts.

Variables likelihood_if_fair prior_fair likelihood_if_loaded prior_loaded : Q.
Variable uniform : nat -> Q.

Local Abbreviation g_ := (g likelihood_if_fair prior_fair
                        likelihood_if_loaded prior_loaded).
Local Abbreviation alpha_of theta :=
  (get_alpha theta likelihood_if_fair prior_fair
     likelihood_if_loaded prior_loaded).
Local Abbreviation body :=
  (loop_body likelihood_if_fair prior_fair
     likelihood_if_loaded prior_loaded uniform).
Local Abbreviation run :=
  (iterate likelihood_if_fair prior_fair
     likelihood_if_loaded prior_loaded uniform).

(** What the loop asks of [get_alpha] at a hypothesis: g of the proposal
    over g of the current state. *)
Lemma get_alpha_propose (theta : Z) :
  is_hypothesis theta ->
  ~ (g_ theta == 0)%Q ->
  alpha_of (propose theta) = Ok (g_ (propose theta) / g_ theta)%Q.
Proof.
  intros [-> | ->] Hg; unfold get_alpha; cbn [propose Z.eqb Pos.eqb];
    now rewrite np_div_products.
Qed.

(** The three ways through the body when the ratio is a number. *)
Lemma loop_body_sure (st : loop_state) (alpha : Q) :
  alpha_of (propose (state st)) = Ok alpha ->
  (1 <= alpha)%Q ->
  body st = Ok (mk_loop_state (propose (state st))
                  (thetas st ++ [propose (state st)]) (draws_used st)).
Proof.
  intros H Ha. unfold loop_body. rewrite H. cbn.
  apply Qle_bool_iff in Ha. now rewrite Ha.
Qed.

Lemma loop_body_accept (st : loop_state) (alpha : Q) :
  alpha_of (propose (state st)) = Ok alpha ->
  (alpha < 1)%Q ->
  (uniform (draws_used st) <= alpha)%Q ->
  body st = Ok (mk_loop_state (propose (state st))
                  (thetas st ++ [propose (state st)]) (S (draws_used st))).
Proof.
  intros H Ha Hu. unfold loop_body. rewrite H. cbn.
  destruct (Qle_bool 1 alpha) eqn:E.
  - apply Qle_bool_iff in E. lra.
  - apply Qle_bool_iff in Hu. now rewrite Hu.
Qed.

Lemma loop_body_reject (st : loop_state) (alpha : Q) :
  alpha_of (propose (state st)) = Ok alpha ->
  (alpha < 1)%Q ->
  (alpha < uniform (draws_used st))%Q ->
  body st = Ok (mk_loop_state (state st)
                  (thetas st ++ [state st]) (S (draws_used st))).
Proof.
  intros H Ha Hu. unfold loop_body. rewrite H. cbn.
  destruct (Qle_bool 1 alpha) eqn:E.
  - apply Qle_bool_iff in E. lra.
  - destruct (Qle_bool (uniform (draws_used st)) alpha) eqn:E'; [|reflexivity].
    apply Qle_bool_iff in E'. lra.
Qed.

(** The ways through the body when the ratio is not a number: inf passes
    the first test, -inf and nan fail both. *)
Lemma loop_body_inf (st : loop_state) :
  alpha_of (propose (state st)) = NonFinite inf ->
  body st = Ok (mk_loop_state (propose (state st))
                  (thetas st ++ [propose (state st)]) (draws_used st)).
Proof. intros H. unfold loop_body. now rewrite H. Qed.

Lemma loop_body_nan (st : loop_state) (s : special) :
  alpha_of (propose (state st)) = NonFinite s ->
  s <> inf ->
  body st = Ok (mk_loop_state (state st)
                  (thetas st ++ [state st]) (S (draws_used st))).
Proof.
  intros H Hs. unfold loop_body. rewrite H.
  destruct s; [congruence | reflexivity | reflexivity].
Qed.

(** A pass always yields a state. *)
Lemma loop_body_returns (st : loop_state) : exists st', body st = Ok st'.
Proof.
  unfold loop_body.
  destruct (ge_1 _); [eauto|]. destruct (le_alpha _ _); eauto.
Qed.

(** Whatever the branch, a pass that returns has appended the new state to
    the trace, has left the state at the old value or at the proposal, and
    has drawn at most once. *)
Lemma loop_body_shape (st st' : loop_state) :
  body st = Ok st' ->
  thetas st' = thetas st ++ [state st'] /\
  (state st' = propose (state st) \/ state st' = state st) /\
  (draws_used st' = draws_used st \/ draws_used st' = S (draws_used st)).
Proof.
  unfold loop_body.
  destruct (ge_1 _); [|destruct (le_alpha _ _)];
    intros [= <-]; cbn; auto.
Qed.

(** A pass returns as soon as the two products are not zero. *)
Lemma loop_body_total (st : loop_state) :
  ~ (likelihood_if_fair * prior_fair == 0)%Q ->
  ~ (likelihood_if_loaded * prior_loaded == 0)%Q ->
  exists st', body st = Ok st'.
Proof. intros _ _. apply loop_body_returns. Qed.

(** C1.  One pass of the loop from a state [s] in {fair, loaded}: the
    proposal [s'] is the other hypothesis, the ratio obtained from
    [get_alpha] is alpha = g(s') / g(s) with g = likelihood * prior, and the
    pass ends at [s'] when alpha >= 1, and otherwise at [s'] exactly when
    the draw [u] satisfies u <= alpha, and at [s] when it does not. *)
Theorem metropolis_step (st : loop_state) (s s' : Z) :
  state st = s ->
  (s = 0 /\ s' = 1) \/ (s = 1 /\ s' = 0) ->
  ~ (g_ s == 0)%Q ->
  let alpha := (g_ s' / g_ s)%Q in
  let u := uniform (draws_used st) in
  propose s = s' /\
  alpha_of s' = Ok alpha /\
  exists st',
    body st = Ok st' /\
    ((1 <= alpha)%Q -> state st' = s') /\
    ((alpha < 1)%Q -> (state st' = s' <-> (u <= alpha)%Q)) /\
    ((alpha < 1)%Q -> ~ (u <= alpha)%Q -> state st' = s).
Proof.
  intros Hs Hss Hg alpha u.
  assert (Hp : propose s = s') by (destruct Hss as [[-> ->] | [-> ->]]; reflexivity).
  assert (Hne : s' <> s) by (destruct Hss as [[-> ->] | [-> ->]]; discriminate).
  assert (Ha : alpha_of (propose (state st)) = Ok alpha).
  { rewrite Hs, get_alpha_propose, Hp by
      (assumption || (destruct Hss as [[-> _] | [-> _]]; red; auto)).
    reflexivity. }
  split; [exact Hp|]. split; [now rewrite Hs, Hp in Ha|].
  destruct (Qlt_le_dec alpha 1) as [Hlt | Hge].
  - destruct (Qlt_le_dec alpha u) as [Hu | Hu].
    + eexists. split; [eapply loop_body_reject; eassumption|]. cbn.
      repeat split; intros; try lra; congruence.
    + eexists. split; [eapply loop_body_accept; eassumption|]. cbn.
      rewrite Hs, Hp. repeat split; intros; try lra; congruence.
  - eexists. split; [eapply loop_body_sure; eassumption|]. cbn.
    rewrite Hs, Hp. repeat split; intros; try lra; congruence.
Qed.

(** C10.  [get_alpha] compares its flag with 1 only: at every integer other
    than 1 (2 or -1 as well as 0) it returns the ratio it returns for the
    fair flag, (likelihood_fair * prior_fair) / (likelihood_loaded *
    prior_loaded), and at every integer it returns a ratio, not an
    exception, once the product it divides by is not zero. *)
Theorem get_alpha_total (theta : Z) :
  ~ ((if theta =? 1 then likelihood_if_fair * prior_fair
      else likelihood_if_loaded * prior_loaded) == 0)%Q ->
  exists alpha : Q,
    alpha_of theta = Ok alpha /\
    (theta <> 1 ->
     alpha = ((likelihood_if_fair * prior_fair)
              / (likelihood_if_loaded * prior_loaded))%Q /\
     alpha_of theta = alpha_of 0).
Proof.
  intros Hd. unfold get_alpha.
  destruct (theta =? 1) eqn:E.
  - rewrite np_div_products by exact Hd. eexists. split; [reflexivity|].
    apply Z.eqb_eq in E. intros Hne. contradiction.
  - rewrite np_div_products by exact Hd. eexists. split; [reflexivity|].
    intros _. split; reflexivity.
Qed.

(** ** Runs of the loop *)

Lemma iterate_add (j k : nat) (st : loop_state) :
  run (j + k) st = (st' <- run j st ;; run k st').
Proof.
  revert st. induction j as [|j IH]; intros st; cbn; [reflexivity|].
  destruct (body st) as [st1|e]; cbn; [apply IH|reflexivity].
Qed.

Lemma iterate_succ (k : nat) (st : loop_state) :
  run (S k) st = (st' <- run k st ;; body st').
Proof.
  replace (S k) with (k + 1)%nat by lia. rewrite iterate_add.
  destruct (run k st) as [st'|e]; cbn; [|reflexivity].
  destruct (body st'); reflexivity.
Qed.

Lemma iterate_total (k : nat) (st : loop_state) :
  ~ (likelihood_if_fair * prior_fair == 0)%Q ->
  ~ (likelihood_if_loaded * prior_loaded == 0)%Q ->
  exists st', run k st = Ok st'.
Proof.
  intros Hf Hl. revert st. induction k as [|k IH]; intros st; cbn.
  - eauto.
  - destruct (loop_body_total st Hf Hl) as [st1 ->]. cbn. apply IH.
Qed.

(** A run of [k] passes extends the trace by [k] samples. *)
Lemma iterate_trace (k : nat) (st st' : loop_state) :
  run k st = Ok st' ->
  exists samples, thetas st' = thetas st ++ samples /\ length samples = k.
Proof.
  revert st. induction k as [|k IH]; intros st; cbn.
  - intros [= <-]. exists []. now rewrite app_nil_r.
  - destruct (body st) as [st1|e] eqn:E; cbn; [|discriminate].
    intros H. destruct (IH _ H) as (samples & -> & Hlen).
    destruct (loop_body_shape _ _ E) as (-> & _).
    exists (state st1 :: samples). rewrite <- app_assoc. cbn. split; congruence.
Qed.

(** An earlier point of a run, when the run gets further. *)
Lemma iterate_earlier (j k : nat) (st st' : loop_state) :
  run (j + k) st = Ok st' ->
  exists mid, run j st = Ok mid /\ run k mid = Ok st'.
Proof.
  rewrite iterate_add. destruct (run j st) as [mid|e]; cbn; [eauto|discriminate].
Qed.

(** The result of pass [i] of a run that gets past it is entry [i] of the
    trace from then on. *)
Lemma iterate_records (i k : nat) (st before after final : loop_state) :
  thetas st = [] ->
  run i st = Ok before ->
  body before = Ok after ->
  run k after = Ok final ->
  nth_error (thetas final) i = Some (state after).
Proof.
  intros Hnil Hi Hb Hk.
  destruct (iterate_trace _ _ _ Hi) as (pre & Hpre & Hlen).
  destruct (iterate_trace _ _ _ Hk) as (post & -> & _).
  destruct (loop_body_shape _ _ Hb) as (-> & _).
  rewrite Hpre, Hnil. cbn [app]. rewrite <- app_assoc.
  rewrite nth_error_app2 by lia.
  rewrite Hlen, Nat.sub_diag. reflexivity.
Qed.

(** A run returns, with one entry per pass, once the two products are not
    zero. *)
Lemma mcmc_returns (iterations initial_state : Z) :
  0 <= iterations ->
  ~ (likelihood_if_fair * prior_fair == 0)%Q ->
  ~ (likelihood_if_loaded * prior_loaded == 0)%Q ->
  exists final,
    mcmc likelihood_if_fair prior_fair likelihood_if_loaded prior_loaded
      uniform iterations initial_state = Ok final /\
    Z.of_nat (length (thetas final)) = iterations.
Proof.
  intros Hn Hf Hl. unfold mcmc.
  destruct (iterate_total (Z.to_nat iterations)
              (mk_loop_state initial_state [] 0) Hf Hl) as [final Hfinal].
  exists final. split; [exact Hfinal|].
  destruct (iterate_trace _ _ _ Hfinal) as (samples & -> & Hlen).
  cbn. lia.
Qed.

(** C5.  A run of [iterations] passes records one sample per pass: pass [i]
    appends exactly one entry to the trace, the state it ends in (the
    proposal or the state it started from), which is the state pass [i+1]
    starts from and entry [i] of the final trace; the final trace has
    [iterations] entries. *)
Theorem one_sample_per_iteration (iterations initial_state : Z) :
  0 <= iterations ->
  ~ (likelihood_if_fair * prior_fair == 0)%Q ->
  ~ (likelihood_if_loaded * prior_loaded == 0)%Q ->
  exists final,
    mcmc likelihood_if_fair prior_fair likelihood_if_loaded prior_loaded
      uniform iterations initial_state = Ok final /\
    Z.of_nat (length (thetas final)) = iterations /\
    forall i : nat, (i < Z.to_nat iterations)%nat ->
      exists before after,
        run i (mk_loop_state initial_state [] 0) = Ok before /\
        body before = Ok after /\
        run (S i) (mk_loop_state initial_state [] 0) = Ok after /\
        thetas after = thetas before ++ [state after] /\
        (state after = propose (state before) \/ state after = state before) /\
        nth_error (thetas final) i = Some (state after).
Proof.
  intros Hn Hf Hl. unfold mcmc.
  set (init := mk_loop_state initial_state [] 0).
  destruct (iterate_total (Z.to_nat iterations) init Hf Hl) as [final Hfinal].
  exists final. split; [exact Hfinal|]. split.
  - destruct (iterate_trace _ _ _ Hfinal) as (samples & -> & Hlen).
    cbn. lia.
  - intros i Hi.
    replace (Z.to_nat iterations) with (S i + (Z.to_nat iterations - S i))%nat
      in Hfinal by lia.
    destruct (iterate_earlier _ _ _ _ Hfinal) as (after & Hafter & Hrest).
    pose proof Hafter as Hsucc. rewrite iterate_succ in Hsucc.
    destruct (run i init) as [before|e] eqn:Hbefore; cbn in Hsucc;
      [|discriminate].
    exists before, after.
    destruct (loop_body_shape _ _ Hsucc) as (Hrec & Hmove & _).
    repeat split; try assumption.
    eapply iterate_records; try eassumption. reflexivity.
Qed.

(** C8.  With [iterations = 0] the body of the loop is not entered: the run
    returns, [thetas] is the empty list, the state is the initial one and no
    draw has been made, whatever the priors, likelihoods and initial state. *)
Theorem zero_iterations_empty_trace (initial_state : Z) :
  mcmc likelihood_if_fair prior_fair likelihood_if_loaded prior_loaded
    uniform 0 initial_state = Ok (mk_loop_state initial_state [] 0).
Proof. reflexivity. Qed.

(** [range] of a negative count is empty as well. *)
Lemma nonpositive_iterations_empty_trace (iterations initial_state : Z) :
  iterations <= 0 ->
  mcmc likelihood_if_fair prior_fair likelihood_if_loaded prior_loaded
    uniform iterations initial_state = Ok (mk_loop_state initial_state [] 0).
Proof.
  intros Hn. unfold mcmc.
  replace (Z.to_nat iterations) with 0%nat by lia. reflexivity.
Qed.

(** ** The chain stays on the two flags *)

Lemma loop_body_hypothesis (st st' : loop_state) :
  is_hypothesis (state st) ->
  Forall is_hypothesis (thetas st) ->
  body st = Ok st' ->
  is_hypothesis (state st') /\ Forall is_hypothesis (thetas st').
Proof.
  intros Hs Ht Hb.
  destruct (loop_body_shape _ _ Hb) as (Hrec & Hmove & _).
  assert (Hs' : is_hypothesis (state st')).
  { destruct Hmove as [-> | ->]; [apply propose_hypothesis|exact Hs]. }
  split; [exact Hs'|].
  rewrite Hrec. apply Forall_app. split; [exact Ht|].
  constructor; [exact Hs'|constructor].
Qed.

Lemma iterate_hypothesis (k : nat) (st st' : loop_state) :
  is_hypothesis (state st) ->
  Forall is_hypothesis (thetas st) ->
  run k st = Ok st' ->
  is_hypothesis (state st') /\ Forall is_hypothesis (thetas st').
Proof.
  revert st. induction k as [|k IH]; intros st Hs Ht; cbn.
  - intros [= <-]. auto.
  - destruct (body st) as [st1|e] eqn:E; cbn; [|discriminate].
    destruct (loop_body_hypothesis _ _ Hs Ht E) as [Hs1 Ht1].
    apply IH; assumption.
Qed.

(** C4.  Started on one of the two flags, after any number [k] of passes and
    for any stream of draws the state is 0 or 1, every entry of the trace
    recorded so far is 0 or 1, and the pass that follows ends on 0 or 1 too:
    no third value is reached. *)
Theorem no_third_state (k : nat) (initial_state : Z) (st : loop_state) :
  is_hypothesis initial_state ->
  run k (mk_loop_state initial_state [] 0) = Ok st ->
  is_hypothesis (state st) /\
  Forall is_hypothesis (thetas st) /\
  forall st', body st = Ok st' ->
    is_hypothesis (state st') /\ Forall is_hypothesis (thetas st').
Proof.
  intros H0 Hrun.
  destruct (iterate_hypothesis k (mk_loop_state initial_state [] 0) st)
    as [Hs Ht]; try assumption; [constructor|].
  repeat split; try assumption;
    eapply loop_body_hypothesis; eassumption.
Qed.

End Facts.

(** ** The branch that does not draw *)

(** C7.  At a state [s] in {fair, loaded} with g(s) > 0, if the proposal
    [s'] has g(s') >= g(s) then the ratio is at least 1 and the pass ends at
    [s'] with [s'] recorded, the same for any two streams of draws, and the
    number of draws consumed is unchanged. *)
Theorem sure_move_ignores_draw
  (likelihood_if_fair prior_fair likelihood_if_loaded prior_loaded : Q)
  (uniform uniform' : nat -> Q) (st : loop_state) (s s' : Z) :
  state st = s ->
  (s = 0 /\ s' = 1) \/ (s = 1 /\ s' = 0) ->
  (0 < g likelihood_if_fair prior_fair likelihood_if_loaded prior_loaded s)%Q ->
  (g likelihood_if_fair prior_fair likelihood_if_loaded prior_loaded s
   <= g likelihood_if_fair prior_fair likelihood_if_loaded prior_loaded s')%Q ->
  exists alpha,
    get_alpha s' likelihood_if_fair prior_fair
      likelihood_if_loaded prior_loaded = Ok alpha /\
    (1 <= alpha)%Q /\
    loop_body likelihood_if_fair prior_fair likelihood_if_loaded prior_loaded
      uniform st
    = Ok (mk_loop_state s' (thetas st ++ [s']) (draws_used st)) /\
    loop_body likelihood_if_fair prior_fair likelihood_if_loaded prior_loaded
      uniform' st
    = Ok (mk_loop_state s' (thetas st ++ [s']) (draws_used st)).
Proof.
  intros Hs Hss Hpos Hle.
  assert (Hp : propose (state st) = s')
    by (rewrite Hs; destruct Hss as [[-> ->] | [-> ->]]; reflexivity).
  assert (Ha : get_alpha (propose (state st)) likelihood_if_fair prior_fair
                 likelihood_if_loaded prior_loaded
               = Ok (g likelihood_if_fair prior_fair
                       likelihood_if_loaded prior_loaded s'
                     / g likelihood_if_fair prior_fair
                         likelihood_if_loaded prior_loaded s)%Q).
  { rewrite Hs in Hp |- *. rewrite get_alpha_propose, Hp;
      [reflexivity | destruct Hss as [[-> _] | [-> _]]; red; auto | lra]. }
  assert (H1 : (1 <= g likelihood_if_fair prior_fair
                       likelihood_if_loaded prior_loaded s'
                     / g likelihood_if_fair prior_fair
                         likelihood_if_loaded prior_loaded s)%Q).
  { apply Qle_shift_div_l; [exact Hpos | lra]. }
  pose proof Ha as Ha'. rewrite Hp in Ha'.
  eexists. split; [exact Ha'|]. split; [exact H1|].
  split; (erewrite loop_body_sure by eassumption; rewrite Hp; reflexivity).
Qed.

(** ** Detailed balance *)

Section Balance.

Local Open Scope Q_scope.

Variables a b : Q.
Hypothesis a_pos : 0 < a.
Hypothesis b_pos : 0 < b.

Lemma min_ratio_up : a <= b -> Qmin 1 (b / a) == 1.
Proof.
  intros Hab. apply Q.min_l. apply Qle_shift_div_l; [exact a_pos | lra].
Qed.

Lemma min_ratio_down : a <= b -> Qmin 1 (a / b) == a / b.
Proof.
  intros Hab. apply Q.min_r. apply Qle_shift_div_r; [exact b_pos | lra].
Qed.

Lemma balance_le : a <= b ->
  a / (a + b) * Qmin 1 (b / a) == b / (a + b) * Qmin 1 (a / b).
Proof.
  intros Hab. rewrite (min_ratio_up Hab), (min_ratio_down Hab).
  field. split; lra.
Qed.

End Balance.

Lemma balance (a b : Q) : (0 < a)%Q -> (0 < b)%Q ->
  (a / (a + b) * Qmin 1 (b / a) == b / (a + b) * Qmin 1 (a / b))%Q.
Proof.
  intros Ha Hb. destruct (Qlt_le_dec b a) as [Hlt | Hle].
  - symmetry. rewrite (Qplus_comm a b).
    apply balance_le; [assumption | assumption | lra].
  - apply balance_le; assumption.
Qed.

(** The draws in [0,1) on which a pass moves to the proposal are those not
    above min(1, alpha). *)
Lemma moves_iff_below_T
  (likelihood_if_fair prior_fair likelihood_if_loaded prior_loaded : Q)
  (uniform : nat -> Q) (st : loop_state) (alpha : Q) :
  get_alpha (propose (state st)) likelihood_if_fair prior_fair
    likelihood_if_loaded prior_loaded = Ok alpha ->
  propose (state st) <> state st ->
  (uniform (draws_used st) < 1)%Q ->
  exists st',
    loop_body likelihood_if_fair prior_fair likelihood_if_loaded prior_loaded
      uniform st = Ok st' /\
    (state st' = propose (state st)
     <-> (uniform (draws_used st) <= Qmin 1 alpha)%Q).
Proof.
  intros Ha Hne Hu.
  destruct (Qlt_le_dec alpha 1) as [Hlt | Hge].
  - assert (Hmin : (Qmin 1 alpha == alpha)%Q) by (apply Q.min_r; lra).
    destruct (Qlt_le_dec alpha (uniform (draws_used st))) as [Hrej | Hacc].
    + eexists. split; [eapply loop_body_reject; eassumption|]. cbn.
      split; [congruence | lra].
    + eexists. split; [eapply loop_body_accept; eassumption|]. cbn.
      split; [lra | reflexivity].
  - assert (Hmin : (Qmin 1 alpha == 1)%Q) by (apply Q.min_l; lra).
    eexists. split; [eapply loop_body_sure; eassumption|]. cbn.
    split; [lra | reflexivity].
Qed.

(** C2.  When both products likelihood * prior are positive, the analytical
    posterior of cell 2 and the move probabilities T = min(1, alpha) of the
    acceptance rule are defined and balance:
    posterior(fair) * T(fair -> loaded) = posterior(loaded) * T(loaded -> fair);
    and T(s) is the bound below which a draw from [0,1) moves the chain
    from [s] to the other flag. *)
Theorem detailed_balance
  (likelihood_if_fair prior_fair likelihood_if_loaded prior_loaded : Q) :
  (0 < likelihood_if_fair * prior_fair)%Q ->
  (0 < likelihood_if_loaded * prior_loaded)%Q ->
  exists pi_fair pi_loaded T_fair T_loaded : Q,
    posterior likelihood_if_fair prior_fair
      likelihood_if_loaded prior_loaded 0 = Ok pi_fair /\
    posterior likelihood_if_fair prior_fair
      likelihood_if_loaded prior_loaded 1 = Ok pi_loaded /\
    T likelihood_if_fair prior_fair
      likelihood_if_loaded prior_loaded 0 = Ok T_fair /\
    T likelihood_if_fair prior_fair
      likelihood_if_loaded prior_loaded 1 = Ok T_loaded /\
    (pi_fair * T_fair == pi_loaded * T_loaded)%Q /\
    forall (uniform : nat -> Q) (st : loop_state),
      is_hypothesis (state st) ->
      (uniform (draws_used st) < 1)%Q ->
      exists st',
        loop_body likelihood_if_fair prior_fair
          likelihood_if_loaded prior_loaded uniform st = Ok st' /\
        (state st' = propose (state st)
         <-> (uniform (draws_used st)
              <= (if state st =? 1 then T_loaded else T_fair))%Q).
Proof.
  intros Hf Hl.
  set (a := (likelihood_if_fair * prior_fair)%Q) in *.
  set (b := (likelihood_if_loaded * prior_loaded)%Q) in *.
  exists (a / (a + b))%Q, (b / (a + b))%Q, (Qmin 1 (b / a)), (Qmin 1 (a / b)).
  assert (Hab : ~ (a + b == 0)%Q) by lra.
  assert (Ha : ~ (a == 0)%Q) by lra.
  assert (Hb : ~ (b == 0)%Q) by lra.
  assert (Hfl : get_alpha 1 likelihood_if_fair prior_fair
                  likelihood_if_loaded prior_loaded = Ok (b / a)%Q)
    by (apply get_alpha_1; exact Ha).
  assert (Hlf : get_alpha 0 likelihood_if_fair prior_fair
                  likelihood_if_loaded prior_loaded = Ok (a / b)%Q)
    by (apply get_alpha_0; exact Hb).
  repeat split.
  - unfold posterior. cbn [Z.eqb]. apply posterior_fair_ok. exact Hab.
  - unfold posterior. cbn [Z.eqb Pos.eqb]. apply posterior_loaded_ok.
    exact Hab.
  - unfold T. change (propose 0) with 1. now rewrite Hfl.
  - unfold T. change (propose 1) with 0. now rewrite Hlf.
  - apply balance; assumption.
  - intros uniform st [Hs | Hs] Hu; rewrite Hs; cbn [Z.eqb Pos.eqb].
    + destruct (moves_iff_below_T likelihood_if_fair prior_fair
                  likelihood_if_loaded prior_loaded uniform st (b / a))
        as (st' & Hbody & Hiff);
        try (rewrite Hs; cbn; assumption || discriminate); [exact Hu|].
      rewrite Hs in Hiff. eauto.
    + destruct (moves_iff_below_T likelihood_if_fair prior_fair
                  likelihood_if_loaded prior_loaded uniform st (a / b))
        as (st' & Hbody & Hiff);
        try (rewrite Hs; cbn; assumption || discriminate); [exact Hu|].
      rewrite Hs in Hiff. eauto.
Qed.

(** Balance makes the posterior a fixed point of the chain's matrix. *)
Lemma posterior_stationary
  (likelihood_if_fair prior_fair likelihood_if_loaded prior_loaded : Q) :
  (0 < likelihood_if_fair * prior_fair)%Q ->
  (0 < likelihood_if_loaded * prior_loaded)%Q ->
  exists pi_fair pi_loaded T_fair T_loaded : Q,
    posterior likelihood_if_fair prior_fair
      likelihood_if_loaded prior_loaded 0 = Ok pi_fair /\
    posterior likelihood_if_fair prior_fair
      likelihood_if_loaded prior_loaded 1 = Ok pi_loaded /\
    T likelihood_if_fair prior_fair
      likelihood_if_loaded prior_loaded 0 = Ok T_fair /\
    T likelihood_if_fair prior_fair
      likelihood_if_loaded prior_loaded 1 = Ok T_loaded /\
    Forall2 Qeq (matmul [pi_fair; pi_loaded] (chain_matrix T_fair T_loaded))
      [pi_fair; pi_loaded].
Proof.
  intros Hf Hl.
  set (a := (likelihood_if_fair * prior_fair)%Q) in *.
  set (b := (likelihood_if_loaded * prior_loaded)%Q) in *.
  assert (Hab : ~ (a + b == 0)%Q) by lra.
  assert (Ha : ~ (a == 0)%Q) by lra.
  assert (Hb : ~ (b == 0)%Q) by lra.
  exists (a / (a + b))%Q, (b / (a + b))%Q, (Qmin 1 (b / a)), (Qmin 1 (a / b)).
  repeat split.
  - unfold posterior. cbn [Z.eqb]. apply posterior_fair_ok. exact Hab.
  - unfold posterior. cbn [Z.eqb Pos.eqb]. apply posterior_loaded_ok.
    exact Hab.
  - unfold T. change (propose 0) with 1.
    rewrite get_alpha_1 by exact Ha. reflexivity.
  - unfold T. change (propose 1) with 0.
    rewrite get_alpha_0 by exact Hb. reflexivity.
  - pose proof (balance a b Hf Hl) as Hbal.
    set (p := (a / (a + b))%Q) in *. set (q := (b / (a + b))%Q) in *.
    set (t := Qmin 1 (b / a)) in *. set (r := Qmin 1 (a / b)) in *.
    cbn. repeat constructor.
    + transitivity (p - p * t + q * r)%Q; [ring|]. rewrite Hbal. ring.
    + transitivity (p * t - q * r + q)%Q; [ring|]. rewrite Hbal. ring.
Qed.

(** ** The notebook's numbers *)

Module NotebookFacts.

Import Notebook.

Local Open Scope Q_scope.

(** Cell 3 prints alpha = 0.63504 for theta = loaded and 1.57470 for
    theta = fair. *)
Example alpha_loaded_printed :
  exists alpha,
    get_alpha 1 likelihood_if_fair prior_fair
      likelihood_if_loaded prior_loaded = Ok alpha /\
    alpha == 0.63504.
Proof. eexists. split; [reflexivity|]. reflexivity. Qed.

Example alpha_fair_printed :
  exists alpha,
    get_alpha 0 likelihood_if_fair prior_fair
      likelihood_if_loaded prior_loaded = Ok alpha /\
    close_to 0.000005 alpha 1.57470.
Proof.
  eexists. split; [reflexivity|].
  apply Qle_bool_iff. vm_compute. reflexivity.
Qed.

(** Cell 2 prints 0.38839 and 0.61161. *)
Example posterior_printed :
  exists p_l p_f,
    posterior_loaded likelihood_if_fair prior_fair
      likelihood_if_loaded prior_loaded = Ok p_l /\
    posterior_fair likelihood_if_fair prior_fair
      likelihood_if_loaded prior_loaded = Ok p_f /\
    close_to 0.000005 p_l 0.38839 /\
    close_to 0.000005 p_f 0.61161.
Proof.
  do 2 eexists. split; [reflexivity|]. split; [reflexivity|].
  split; apply Qle_bool_iff; vm_compute; reflexivity.
Qed.

(** Cells 7 and 8 print [0.609348, 0.390652] and
    [0.61162765, 0.38837235]. *)
Example pi_s_P_printed :
  Forall2 Qeq (matmul pi_s P) [0.609348; 0.390652].
Proof. repeat constructor. Qed.

Example pi_a_P_printed :
  Forall2 Qeq (matmul pi_a P) [0.61162765; 0.38837235].
Proof. repeat constructor. Qed.

(** The matrix [P] of cell 6 is the chain's matrix for these numbers,
    (0.36496, 0.63504), (1, 0), with its entries rounded to three places. *)
Example P_is_rounded_chain_matrix :
  exists T_fair T_loaded,
    T likelihood_if_fair prior_fair
      likelihood_if_loaded prior_loaded 0 = Ok T_fair /\
    T likelihood_if_fair prior_fair
      likelihood_if_loaded prior_loaded 1 = Ok T_loaded /\
    T_fair == 0.63504 /\ T_loaded == 1 /\
    Forall2 (Forall2 (close_to 0.00005)) P (chain_matrix T_fair T_loaded).
Proof.
  do 2 eexists. split; [reflexivity|]. split; [reflexivity|].
  split; [reflexivity|]. split; [reflexivity|].
  repeat constructor; apply Qle_bool_iff; vm_compute; reflexivity.
Qed.

End NotebookFacts.

(** ** Stationarity of the analytical posterior *)

(** C9.  The product of the analytical posterior [pi_a] = (0.61161, 0.38839)
    with the transition matrix [P] = ((0.365, 0.635), (1, 0)) is a vector of
    the same length whose entries are within 1e-3 of those of [pi_a]. *)
Theorem pi_a_stationary :
  Forall2 (close_to 0.001) (matmul pi_a P) pi_a.
Proof.
  repeat constructor; apply Qle_bool_iff; vm_compute; reflexivity.
Qed.

(** The margin left by the exact product absorbs any error of at most 1e-6
    per entry in the computed one. *)
Lemma pi_a_stationary_margin (computed : list Q) :
  Forall2 (close_to 0.000001) computed (matmul pi_a P) ->
  Forall2 (close_to 0.001) computed pi_a.
Proof.
  intros H. cbn in H.
  inversion H as [|x0 e0 l0 l0' H0 Hrest]; subst.
  inversion Hrest as [|x1 e1 l1 l1' H1 Hnil]; subst.
  inversion Hnil; subst.
  unfold close_to in *.
  apply Qabs_Qle_condition in H0, H1.
  repeat constructor; apply Qabs_Qle_condition; cbn in *; lra.
Qed.

(** ** Inputs the loop does not check *)

(** A run always returns, with one entry per pass. *)
Lemma iterate_returns
  (likelihood_if_fair prior_fair likelihood_if_loaded prior_loaded : Q)
  (uniform : nat -> Q) (k : nat) :
  forall st, exists st',
    iterate likelihood_if_fair prior_fair likelihood_if_loaded prior_loaded
      uniform k st = Ok st' /\
    length (thetas st') = (length (thetas st) + k)%nat.
Proof.
  induction k as [|k IH]; intros st; cbn [iterate].
  - exists st. split; [reflexivity | lia].
  - destruct (loop_body_returns likelihood_if_fair prior_fair
                likelihood_if_loaded prior_loaded uniform st) as [st1 Hb].
    rewrite Hb. cbn [bind].
    destruct (IH st1) as (st' & Hrun & Hlen). exists st'.
    split; [exact Hrun|].
    destruct (loop_body_shape _ _ _ _ _ _ _ Hb) as (Hrec & _ & _).
    rewrite Hlen, Hrec, length_app. cbn. lia.
Qed.

(** With two zero likelihoods both products are zero, the ratio is nan
    whatever the state, and a pass records the state it started from. *)
Lemma nan_ratio_stays
  (likelihood_if_fair prior_fair likelihood_if_loaded prior_loaded : Q)
  (uniform : nat -> Q) :
  (likelihood_if_fair == 0)%Q ->
  (likelihood_if_loaded == 0)%Q ->
  forall (k : nat) (s : Z) (t : list Z) (d : nat),
    iterate likelihood_if_fair prior_fair likelihood_if_loaded prior_loaded
      uniform k (mk_loop_state s t d)
    = Ok (mk_loop_state s (t ++ repeat s k) (d + k)).
Proof.
  intros Hf Hl.
  assert (Hnan : forall theta,
            get_alpha theta likelihood_if_fair prior_fair
              likelihood_if_loaded prior_loaded = NonFinite nan).
  { intros theta. unfold get_alpha.
    destruct (theta =? 1); apply np_div_nan; unfold np_mul, of_Q; cbn [val];
      (rewrite Hf || rewrite Hl); apply Qmult_0_l. }
  induction k as [|k IH]; intros s t d.
  - cbn. now rewrite app_nil_r, Nat.add_0_r.
  - cbn [iterate].
    rewrite (loop_body_nan _ _ _ _ uniform (mk_loop_state s t d) nan)
      by (apply Hnan || discriminate).
    cbn [bind state thetas draws_used]. rewrite IH.
    cbn [repeat]. rewrite <- app_assoc. cbn [app].
    now rewrite Nat.add_succ_r.
Qed.

(** C6, as stated, fails: with a negative prior (prior_loaded = 1.5, hence
    prior_fair = 1 - 1.5 = -0.5) and three iterations the run returns three
    samples instead of failing; with [iterations = 0] or [-5] and the
    notebook's numbers it returns the empty trace instead of failing; and
    with two zero likelihoods and two iterations it returns two samples
    instead of failing. *)
Lemma invalid_inputs_not_rejected :
  (1 - 1.5 < 0)%Q /\
  mcmc Notebook.likelihood_if_fair (1 - 1.5)%Q
    Notebook.likelihood_if_loaded 1.5%Q (fun _ => 0.5%Q) 3 0
  = Ok (mk_loop_state 0 [0; 0; 0] 3) /\
  mcmc Notebook.likelihood_if_fair Notebook.prior_fair
    Notebook.likelihood_if_loaded Notebook.prior_loaded (fun _ => 0.5%Q) 0 1
  = Ok (mk_loop_state 1 [] 0) /\
  mcmc Notebook.likelihood_if_fair Notebook.prior_fair
    Notebook.likelihood_if_loaded Notebook.prior_loaded (fun _ => 0.5%Q) (-5) 1
  = Ok (mk_loop_state 1 [] 0) /\
  mcmc 0%Q Notebook.prior_fair 0%Q Notebook.prior_loaded (fun _ => 0.5%Q) 2 1
  = Ok (mk_loop_state 1 [1; 1] 2).
Proof.
  split; [reflexivity|]. repeat split; vm_compute; reflexivity.
Qed.

(** C6, amended.  The loop validates nothing and never fails.  A
    non-positive iteration count gives the empty trace.  For priors and
    likelihoods of any sign, zero included, the run returns one sample per
    iteration.  When both likelihoods are zero the ratio is nan (0/0 on
    NumPy scalars: a warning, no exception), both tests of the loop are
    false and every sample is the initial state. *)
Theorem mcmc_failure_modes
  (likelihood_if_fair prior_fair likelihood_if_loaded prior_loaded : Q)
  (uniform : nat -> Q) (iterations initial_state : Z) :
  (iterations <= 0 ->
   mcmc likelihood_if_fair prior_fair likelihood_if_loaded prior_loaded
     uniform iterations initial_state
   = Ok (mk_loop_state initial_state [] 0)) /\
  (0 <= iterations ->
   exists final,
     mcmc likelihood_if_fair prior_fair likelihood_if_loaded prior_loaded
       uniform iterations initial_state = Ok final /\
     Z.of_nat (length (thetas final)) = iterations) /\
  (0 <= iterations ->
   (likelihood_if_fair == 0)%Q ->
   (likelihood_if_loaded == 0)%Q ->
   mcmc likelihood_if_fair prior_fair likelihood_if_loaded prior_loaded
     uniform iterations initial_state
   = Ok (mk_loop_state initial_state
           (repeat initial_state (Z.to_nat iterations))
           (Z.to_nat iterations))).
Proof.
  split; [|split].
  - apply nonpositive_iterations_empty_trace.
  - intros Hn. unfold mcmc.
    destruct (iterate_returns likelihood_if_fair prior_fair
                likelihood_if_loaded prior_loaded uniform
                (Z.to_nat iterations) (mk_loop_state initial_state [] 0))
      as (final & Hrun & Hlen).
    exists final. split; [exact Hrun|]. cbn in Hlen. lia.
  - intros Hn Hzf Hzl. unfold mcmc.
    now rewrite (nan_ratio_stays _ _ _ _ uniform Hzf Hzl).
Qed.

(** ** A run in which every draw is rejected *)

(** From the fair state, while the ratio for the loaded proposal is below 1
    and every draw is above it, the chain never leaves the fair state. *)
Lemma rejected_draws_stay_fair
  (likelihood_if_fair prior_fair likelihood_if_loaded prior_loaded : Q)
  (uniform : nat -> Q) (alpha : Q) :
  get_alpha 1 likelihood_if_fair prior_fair
    likelihood_if_loaded prior_loaded = Ok alpha ->
  (alpha < 1)%Q ->
  (forall k, (alpha < uniform k)%Q) ->
  forall (k : nat) (trace : list Z) (used : nat),
    iterate likelihood_if_fair prior_fair likelihood_if_loaded prior_loaded
      uniform k (mk_loop_state 0 trace used)
    = Ok (mk_loop_state 0 (trace ++ repeat 0 k) (used + k)).
Proof.
  intros Ha Hlt Hu. induction k as [|k IH]; intros trace used.
  - cbn. now rewrite app_nil_r, Nat.add_0_r.
  - cbn [iterate].
    rewrite (loop_body_reject _ _ _ _ uniform (mk_loop_state 0 trace used) alpha)
      by (cbn; auto).
    cbn [bind state thetas draws_used]. rewrite IH.
    cbn [repeat]. rewrite <- app_assoc. cbn [app].
    now rewrite Nat.add_succ_r.
Qed.

Lemma p_loaded_all_fair (k : nat) :
  p_loaded (repeat 0 (S k))
  = Some (inject_Z 0 / inject_Z (Z.of_nat (S k)))%Q.
Proof.
  unfold p_loaded, np_mean.
  assert (H : map (fun theta => theta =? 1) (repeat 0 (S k)) = repeat false (S k)).
  { generalize (S k). intros n. induction n as [|n IHn]; cbn; congruence. }
  rewrite H. cbn [repeat].
  assert (Hf : forall n, filter (fun b : bool => b) (repeat false n) = []).
  { intros n. induction n as [|n IHn]; cbn; auto. }
  cbn [filter]. rewrite Hf. cbn [length]. rewrite repeat_length.
  reflexivity.
Qed.

(** With the notebook's numbers, a fair start and every draw equal to 0.9,
    the cell's 10000 samples are all fair and the empirical P(loaded) is 0,
    further than 0.02 from 0.38839: the figure the simulation prints is a
    property of the draws, not of the loop alone. *)
Lemma all_draws_rejected :
  exists final p,
    mcmc_cell Notebook.likelihood_if_fair Notebook.prior_fair
      Notebook.likelihood_if_loaded Notebook.prior_loaded
      (fun _ => 0.9%Q) false = Ok final /\
    p_loaded (thetas final) = Some p /\
    (p == 0)%Q /\
    ~ close_to 0.02 p 0.38839.
Proof.
  unfold mcmc_cell, mcmc, randint_0_2.
  erewrite rejected_draws_stay_fair;
    [ | reflexivity | reflexivity | intros; reflexivity ].
  do 2 eexists. split; [reflexivity|].
  cbn [thetas app].
  replace (Z.to_nat 10000) with (S (Z.to_nat 9999)) by (vm_compute; reflexivity).
  rewrite p_loaded_all_fair.
  split; [reflexivity|]. split; [reflexivity|].
  unfold close_to. intros H. apply Qle_bool_iff in H.
  vm_compute in H. discriminate.
Qed.

(** ** The theorems at the notebook's numbers *)

(** A pass from the fair state with the draw 0.5: alpha = 0.63504, accepted. *)
Lemma metropolis_step_witness :
  propose 0 = 1 /\
  nb_alpha 1 = Ok (nb_g 1 / nb_g 0)%Q /\
  exists st',
    nb_body half (mk_loop_state 0 [] 0) = Ok st' /\
    ((1 <= nb_g 1 / nb_g 0)%Q -> state st' = 1) /\
    ((nb_g 1 / nb_g 0 < 1)%Q ->
     (state st' = 1 <-> (half 0%nat <= nb_g 1 / nb_g 0)%Q)) /\
    ((nb_g 1 / nb_g 0 < 1)%Q ->
     ~ (half 0%nat <= nb_g 1 / nb_g 0)%Q -> state st' = 0).
Proof.
  apply (metropolis_step Notebook.likelihood_if_fair Notebook.prior_fair
           Notebook.likelihood_if_loaded Notebook.prior_loaded
           half (mk_loop_state 0 [] 0) 0 1).
  - reflexivity.
  - left. split; reflexivity.
  - nonzero.
Defined.

(** [get_alpha] at the flag 2. *)
Lemma get_alpha_total_witness :
  exists alpha : Q,
    nb_alpha 2 = Ok alpha /\
    (2 <> 1 ->
     alpha = ((Notebook.likelihood_if_fair * Notebook.prior_fair)
              / (Notebook.likelihood_if_loaded * Notebook.prior_loaded))%Q /\
     nb_alpha 2 = nb_alpha 0).
Proof.
  apply (get_alpha_total Notebook.likelihood_if_fair Notebook.prior_fair
           Notebook.likelihood_if_loaded Notebook.prior_loaded 2).
  nonzero.
Defined.

(** Three iterations from the fair state. *)
Lemma one_sample_per_iteration_witness :
  exists final,
    nb_mcmc half 3 0 = Ok final /\
    Z.of_nat (length (thetas final)) = 3 /\
    forall i : nat, (i < Z.to_nat 3)%nat ->
      exists before after,
        nb_run half i (mk_loop_state 0 [] 0) = Ok before /\
        nb_body half before = Ok after /\
        nb_run half (S i) (mk_loop_state 0 [] 0) = Ok after /\
        thetas after = thetas before ++ [state after] /\
        (state after = propose (state before) \/ state after = state before) /\
        nth_error (thetas final) i = Some (state after).
Proof.
  apply (one_sample_per_iteration Notebook.likelihood_if_fair
           Notebook.prior_fair Notebook.likelihood_if_loaded
           Notebook.prior_loaded half 3 0).
  - lia.
  - nonzero.
  - nonzero.
Defined.

(** The state reached after three passes from the fair state. *)
Lemma no_third_state_witness :
  is_hypothesis 1 /\
  Forall is_hypothesis [1; 0; 1] /\
  forall st', nb_body half (mk_loop_state 1 [1; 0; 1] 2) = Ok st' ->
    is_hypothesis (state st') /\ Forall is_hypothesis (thetas st').
Proof.
  apply (no_third_state Notebook.likelihood_if_fair Notebook.prior_fair
           Notebook.likelihood_if_loaded Notebook.prior_loaded
           half 3 0 (mk_loop_state 1 [1; 0; 1] 2)).
  - left. reflexivity.
  - vm_compute. reflexivity.
Defined.

(** From the loaded state the fair proposal has the larger product. *)
Lemma sure_move_ignores_draw_witness :
  exists alpha,
    nb_alpha 0 = Ok alpha /\
    (1 <= alpha)%Q /\
    nb_body half (mk_loop_state 1 [] 0) = Ok (mk_loop_state 0 [0] 0) /\
    nb_body (fun _ => 0.99%Q) (mk_loop_state 1 [] 0)
    = Ok (mk_loop_state 0 [0] 0).
Proof.
  apply (sure_move_ignores_draw Notebook.likelihood_if_fair Notebook.prior_fair
           Notebook.likelihood_if_loaded Notebook.prior_loaded
           half (fun _ => 0.99%Q) (mk_loop_state 1 [] 0) 1 0).
  - reflexivity.
  - right. split; reflexivity.
  - vm_compute. reflexivity.
  - vm_compute. discriminate.
Defined.

(** Detailed balance for the notebook's coin. *)
Lemma detailed_balance_witness :
  exists pi_fair pi_loaded T_fair T_loaded : Q,
    posterior Notebook.likelihood_if_fair Notebook.prior_fair
      Notebook.likelihood_if_loaded Notebook.prior_loaded 0 = Ok pi_fair /\
    posterior Notebook.likelihood_if_fair Notebook.prior_fair
      Notebook.likelihood_if_loaded Notebook.prior_loaded 1 = Ok pi_loaded /\
    T Notebook.likelihood_if_fair Notebook.prior_fair
      Notebook.likelihood_if_loaded Notebook.prior_loaded 0 = Ok T_fair /\
    T Notebook.likelihood_if_fair Notebook.prior_fair
      Notebook.likelihood_if_loaded Notebook.prior_loaded 1 = Ok T_loaded /\
    (pi_fair * T_fair == pi_loaded * T_loaded)%Q /\
    forall (uniform : nat -> Q) (st : loop_state),
      is_hypothesis (state st) ->
      (uniform (draws_used st) < 1)%Q ->
      exists st',
        nb_body uniform st = Ok st' /\
        (state st' = propose (state st)
         <-> (uniform (draws_used st)
              <= (if state st =? 1 then T_loaded else T_fair))%Q).
Proof.
  apply (detailed_balance Notebook.likelihood_if_fair Notebook.prior_fair
           Notebook.likelihood_if_loaded Notebook.prior_loaded).
  - vm_compute. reflexivity.
  - vm_compute. reflexivity.
Defined.

(** The three regimes: a negative count, a negative prior, two zero
    likelihoods. *)
Lemma mcmc_failure_modes_witness :
  nb_mcmc half (-5) 1 = Ok (mk_loop_state 1 [] 0) /\
  (exists final,
     mcmc Notebook.likelihood_if_fair (1 - 1.5)%Q
       Notebook.likelihood_if_loaded 1.5%Q half 3 0 = Ok final /\
     Z.of_nat (length (thetas final)) = 3) /\
  mcmc 0%Q Notebook.prior_fair 0%Q Notebook.prior_loaded half 2 1
  = Ok (mk_loop_state 1 (repeat 1 (Z.to_nat 2)) (Z.to_nat 2)).
Proof.
  split; [|split].
  - apply (proj1 (mcmc_failure_modes Notebook.likelihood_if_fair
                    Notebook.prior_fair Notebook.likelihood_if_loaded
                    Notebook.prior_loaded half (-5) 1)).
    lia.
  - apply (proj1 (proj2 (mcmc_failure_modes Notebook.likelihood_if_fair
                           (1 - 1.5)%Q Notebook.likelihood_if_loaded
                           1.5%Q half 3 0))).
    lia.
  - apply (proj2 (proj2 (mcmc_failure_modes 0%Q Notebook.prior_fair 0%Q
                           Notebook.prior_loaded half 2 1))).
    + lia.
    + reflexivity.
    + reflexivity.
Defined.

(** * Further properties of the cells *)

(** ** Cells 2 and 3: ratios and posteriors *)

Section Ratios.

Local Open Scope Q_scope.

Variables likelihood_if_fair prior_fair likelihood_if_loaded prior_loaded : Q.

Local Abbreviation gf := (likelihood_if_fair * prior_fair).
Local Abbreviation gl := (likelihood_if_loaded * prior_loaded).
Local Abbreviation alpha_of theta :=
  (get_alpha theta likelihood_if_fair prior_fair
     likelihood_if_loaded prior_loaded).

(** X1.  The two ratios [get_alpha] can return are inverse to each other:
    with both products non-zero, get_alpha(1) * get_alpha(0) = 1; and with
    both products positive at least one of the two is >= 1, so that from
    one of the two states the proposal is always accepted. *)
Theorem get_alpha_reciprocal :
  ~ gf == 0 -> ~ gl == 0 ->
  exists alpha_loaded alpha_fair,
    get_alpha 1 likelihood_if_fair prior_fair
      likelihood_if_loaded prior_loaded = Ok alpha_loaded /\
    get_alpha 0 likelihood_if_fair prior_fair
      likelihood_if_loaded prior_loaded = Ok alpha_fair /\
    alpha_loaded * alpha_fair == 1 /\
    (0 < gf -> 0 < gl -> 1 <= alpha_loaded \/ 1 <= alpha_fair).
Proof.
  intros Hf Hl. exists (gl / gf), (gf / gl).
  split; [now apply get_alpha_1|].
  split; [now apply get_alpha_0|].
  set (a := gf) in *. set (b := gl) in *.
  split; [field; split; assumption|].
  intros Hfp Hlp. destruct (Qlt_le_dec b a) as [Hlt | Hle].
  - right. apply Qle_shift_div_l; [exact Hlp | lra].
  - left. apply Qle_shift_div_l; [exact Hfp | lra].
Qed.

(** X2.  The ratio [get_alpha] returns is the ratio of the analytical
    posteriors of cell 2: the normalising constant [denom] cancels, so
    alpha(loaded) * posterior_fair = posterior_loaded and
    alpha(fair) * posterior_loaded = posterior_fair. *)
Theorem alpha_is_posterior_ratio :
  ~ gf == 0 -> ~ gl == 0 ->
  ~ denom likelihood_if_fair prior_fair
      likelihood_if_loaded prior_loaded == 0 ->
  exists alpha_loaded alpha_fair p_f p_l,
    alpha_of 1%Z = Ok alpha_loaded /\
    alpha_of 0%Z = Ok alpha_fair /\
    posterior_fair likelihood_if_fair prior_fair
      likelihood_if_loaded prior_loaded = Ok p_f /\
    posterior_loaded likelihood_if_fair prior_fair
      likelihood_if_loaded prior_loaded = Ok p_l /\
    alpha_loaded * p_f == p_l /\
    alpha_fair * p_l == p_f.
Proof.
  intros Hf Hl Hd. unfold denom in Hd.
  exists (gl / gf), (gf / gl), (gf / (gf + gl)), (gl / (gf + gl)).
  split; [now apply get_alpha_1|].
  split; [now apply get_alpha_0|].
  split; [now apply posterior_fair_ok|].
  split; [now apply posterior_loaded_ok|].
  set (a := gf) in *. set (b := gl) in *.
  split; field; repeat split; assumption.
Qed.

(** X3.  Cell 2 normalises: whenever [denom] is not zero both posteriors
    are returned and posterior_fair + posterior_loaded = 1; with
    non-negative products each lies in [0, 1].  When [denom] is zero
    nothing is raised and neither posterior is a number: both are nan when
    the two products are zero, and otherwise (two products that cancel)
    they are the two infinities, each with the sign of its product. *)
Theorem posterior_sums_to_one :
  (~ denom likelihood_if_fair prior_fair
       likelihood_if_loaded prior_loaded == 0 ->
   exists p_f p_l,
     posterior_fair likelihood_if_fair prior_fair
       likelihood_if_loaded prior_loaded = Ok p_f /\
     posterior_loaded likelihood_if_fair prior_fair
       likelihood_if_loaded prior_loaded = Ok p_l /\
     p_f + p_l == 1 /\
     (0 <= gf -> 0 <= gl -> 0 <= p_f <= 1 /\ 0 <= p_l <= 1)) /\
  (denom likelihood_if_fair prior_fair
     likelihood_if_loaded prior_loaded == 0 ->
   (gf == 0 ->
    posterior_fair likelihood_if_fair prior_fair
      likelihood_if_loaded prior_loaded = NonFinite nan /\
    posterior_loaded likelihood_if_fair prior_fair
      likelihood_if_loaded prior_loaded = NonFinite nan) /\
   (0 < gf ->
    posterior_fair likelihood_if_fair prior_fair
      likelihood_if_loaded prior_loaded = NonFinite inf /\
    posterior_loaded likelihood_if_fair prior_fair
      likelihood_if_loaded prior_loaded = NonFinite neg_inf) /\
   (gf < 0 ->
    posterior_fair likelihood_if_fair prior_fair
      likelihood_if_loaded prior_loaded = NonFinite neg_inf /\
    posterior_loaded likelihood_if_fair prior_fair
      likelihood_if_loaded prior_loaded = NonFinite inf)).
Proof.
  split.
  - intros Hd. exists (gf / (gf + gl)), (gl / (gf + gl)).
    split; [now apply posterior_fair_ok|].
    split; [now apply posterior_loaded_ok|].
    unfold denom in Hd. set (a := gf) in *. set (b := gl) in *.
    split; [field; exact Hd|].
    intros Hf Hl. assert (Hpos : 0 < a + b) by lra.
    repeat split.
    + apply Qle_shift_div_l; [exact Hpos | lra].
    + apply Qle_shift_div_r; [exact Hpos | lra].
    + apply Qle_shift_div_l; [exact Hpos | lra].
    + apply Qle_shift_div_r; [exact Hpos | lra].
  - intros Hd. unfold posterior_fair, posterior_loaded.
    pose proof Hd as Hd'. unfold denom in Hd'.
    set (a := gf) in *. set (b := gl) in *.
    split; [|split].
    + intros Hf. assert (Hl : b == 0) by lra.
      split; apply np_div_nan; assumption.
    + intros Hf.
      assert (Na : negative a = false) by (apply negative_false; lra).
      assert (Nb : negative b = true) by (apply negative_true; lra).
      split; rewrite np_div_by_zero_sum by (exact Hd || (fold a b; lra)).
      * fold a. now rewrite Na.
      * fold b. now rewrite Nb.
    + intros Hf.
      assert (Na : negative a = true) by (apply negative_true; lra).
      assert (Nb : negative b = false) by (apply negative_false; lra).
      split; rewrite np_div_by_zero_sum by (exact Hd || (fold a b; lra)).
      * fold a. now rewrite Na.
      * fold b. now rewrite Nb.
Qed.

End Ratios.

(** ** Cell 4: how runs compose and what they read *)

Section Runs.

Variables likelihood_if_fair prior_fair likelihood_if_loaded prior_loaded : Q.

Local Abbreviation alpha_of theta :=
  (get_alpha theta likelihood_if_fair prior_fair
     likelihood_if_loaded prior_loaded).
Local Abbreviation body :=
  (loop_body likelihood_if_fair prior_fair
     likelihood_if_loaded prior_loaded).
Local Abbreviation run :=
  (iterate likelihood_if_fair prior_fair
     likelihood_if_loaded prior_loaded).

(** A pass does not read [thetas]: what was recorded before is carried
    along unchanged. *)
Lemma loop_body_frame (uniform : nat -> Q) (s : Z) (t : list Z) (d : nat) :
  body uniform (mk_loop_state s t d)
  = (st' <- body uniform (mk_loop_state s [] d) ;;
     Ok (mk_loop_state (state st') (t ++ thetas st') (draws_used st'))).
Proof.
  unfold loop_body. cbn [state thetas draws_used].
  destruct (ge_1 (alpha_of (propose s))); [reflexivity|].
  destruct (le_alpha (uniform d) (alpha_of (propose s))); reflexivity.
Qed.

Lemma iterate_frame (uniform : nat -> Q) (k : nat) :
  forall (s : Z) (t : list Z) (d : nat),
    run uniform k (mk_loop_state s t d)
    = (fin <- run uniform k (mk_loop_state s [] d) ;;
       Ok (mk_loop_state (state fin) (t ++ thetas fin) (draws_used fin))).
Proof.
  induction k as [|k IH]; intros s t d.
  - cbn. now rewrite app_nil_r.
  - cbn [iterate]. rewrite (loop_body_frame uniform s t d).
    destruct (body uniform (mk_loop_state s [] d)) as [[s1 t1 d1]|e];
      cbn [bind state thetas draws_used]; [|reflexivity].
    rewrite (IH s1 (t ++ t1) d1), (IH s1 t1 d1).
    destruct (run uniform k (mk_loop_state s1 [] d1)) as [[s2 t2 d2]|e];
      cbn [bind state thetas draws_used]; [|reflexivity].
    now rewrite app_assoc.
Qed.

(** X4.  A run of [j + k] passes is a run of [j] passes followed by a run of
    [k] passes that starts from the state reached, with an empty trace and
    the draws continuing where the first run stopped; its trace is the two
    traces one after the other.  The loop keeps no memory beyond the current
    state and the position in the stream of draws. *)
Theorem run_splits (uniform : nat -> Q) (j k : nat) (st : loop_state) :
  run uniform (j + k) st
  = (mid <- run uniform j st ;;
     fin <- run uniform k (mk_loop_state (state mid) [] (draws_used mid)) ;;
     Ok (mk_loop_state (state fin) (thetas mid ++ thetas fin)
           (draws_used fin))).
Proof.
  rewrite iterate_add.
  destruct (run uniform j st) as [[s1 t1 d1]|e]; cbn [bind]; [|reflexivity].
  cbn [state thetas draws_used]. apply iterate_frame.
Qed.

(** A pass reads the stream of draws at the current position only. *)
Lemma loop_body_draw (uniform uniform' : nat -> Q) (st : loop_state) :
  (uniform (draws_used st) == uniform' (draws_used st))%Q ->
  body uniform st = body uniform' st.
Proof.
  intros Hu. unfold loop_body.
  destruct (ge_1 (alpha_of (propose (state st)))); [reflexivity|].
  assert (H : le_alpha (uniform (draws_used st))
                (alpha_of (propose (state st)))
              = le_alpha (uniform' (draws_used st))
                  (alpha_of (propose (state st)))).
  { destruct (alpha_of (propose (state st))) as [alpha|e];
      cbn [le_alpha]; [|reflexivity].
    now rewrite Hu. }
  now rewrite H.
Qed.

Lemma iterate_draws_bound (uniform : nat -> Q) (k : nat) :
  forall st fin : loop_state,
    run uniform k st = Ok fin ->
    (draws_used st <= draws_used fin <= draws_used st + k)%nat.
Proof.
  induction k as [|k IH]; intros st fin; cbn [iterate].
  - intros [= <-]. lia.
  - destruct (body uniform st) as [st1|e] eqn:E; cbn [bind]; [|discriminate].
    intros H. apply IH in H.
    destruct (loop_body_shape _ _ _ _ _ _ _ E) as (_ & _ & [Hd | Hd]); lia.
Qed.

(** X5.  A run of [k] passes draws at most [k] times and looks at no draw
    outside the [k] positions that follow the current one: two streams that
    agree there give the same run, and the number of draws used grows by at
    most [k]. *)
Theorem run_draw_window (uniform uniform' : nat -> Q) (k : nat)
  (st : loop_state) :
  (forall i : nat, (draws_used st <= i < draws_used st + k)%nat ->
     (uniform i == uniform' i)%Q) ->
  run uniform k st = run uniform' k st /\
  forall fin, run uniform k st = Ok fin ->
    (draws_used st <= draws_used fin <= draws_used st + k)%nat.
Proof.
  intros Hwin. split; [|apply iterate_draws_bound].
  revert st Hwin. induction k as [|k IH]; intros st Hwin; cbn [iterate].
  - reflexivity.
  - rewrite <- (loop_body_draw uniform uniform' st) by (apply Hwin; lia).
    destruct (body uniform st) as [st1|e] eqn:E; cbn [bind]; [|reflexivity].
    apply IH. intros i Hi. apply Hwin.
    destruct (loop_body_shape _ _ _ _ _ _ _ E) as (_ & _ & [Hd | Hd]); lia.
Qed.

End Runs.

(** ** Cell 4: the shape of the trace *)

(** Equal non-zero numbers have both ratios at least 1. *)
Lemma ratio_of_equals (a b : Q) :
  (a == b)%Q -> ~ (a == 0)%Q -> (1 <= b / a)%Q /\ (1 <= a / b)%Q.
Proof.
  intros Heq Ha.
  assert (Hb : ~ (b == 0)%Q) by (rewrite <- Heq; exact Ha).
  assert (H1 : (b / a == 1)%Q) by (rewrite <- Heq; field; exact Ha).
  assert (H2 : (a / b == 1)%Q) by (rewrite Heq; field; exact Hb).
  rewrite H1, H2. split; apply Qle_refl.
Qed.

Section Traces.

Local Open Scope Q_scope.

Variables likelihood_if_fair prior_fair likelihood_if_loaded prior_loaded : Q.
Variable uniform : nat -> Q.

Local Abbreviation gf := (likelihood_if_fair * prior_fair).
Local Abbreviation gl := (likelihood_if_loaded * prior_loaded).
Local Abbreviation alpha_of theta :=
  (get_alpha theta likelihood_if_fair prior_fair
     likelihood_if_loaded prior_loaded).
Local Abbreviation body :=
  (loop_body likelihood_if_fair prior_fair
     likelihood_if_loaded prior_loaded uniform).
Local Abbreviation run :=
  (iterate likelihood_if_fair prior_fair
     likelihood_if_loaded prior_loaded uniform).

(** X6.  Line 139 draws the initial state from {0, 1}, but the loop accepts
    any integer.  From any initial value [s0] the trace is a block of copies
    of [s0] (the passes that rejected) followed by flags 0 and 1 only: a
    value other than 0 and 1 can be recorded, but only as the initial value
    and only until the first accepted proposal, after which the chain is on
    the two flags for good. *)
Theorem samples_from_any_start (k : nat) (s0 : Z) (fin : loop_state) :
  run k (mk_loop_state s0 [] 0) = Ok fin ->
  exists (j : nat) (flags : list Z),
    thetas fin = repeat s0 j ++ flags /\
    Forall is_hypothesis flags /\
    ((state fin = s0 /\ flags = []) \/ is_hypothesis (state fin)).
Proof.
  revert fin. induction k as [|k IH]; intros fin.
  - cbn. intros [= <-]. exists 0%nat, []. cbn. auto.
  - rewrite iterate_succ.
    destruct (run k (mk_loop_state s0 [] 0)) as [st|e]; cbn [bind];
      [|discriminate].
    intros Hb. destruct (IH st eq_refl) as (j & flags & Ht & Hf & Hs).
    destruct (loop_body_shape _ _ _ _ _ _ _ Hb) as (Hrec & Hmove & _).
    rewrite Hrec, Ht.
    destruct Hs as [[Hs ->] | Hs].
    + destruct Hmove as [Hm | Hm].
      * exists j, [state fin]. rewrite app_nil_r.
        assert (Hh : is_hypothesis (state fin))
          by (rewrite Hm; apply propose_hypothesis).
        repeat split; auto.
      * exists (S j), []. rewrite Hm, Hs, app_nil_r, <- repeat_cons.
        rewrite app_nil_r. auto.
    + assert (Hh : is_hypothesis (state fin)).
      { destruct Hmove as [-> | ->]; [apply propose_hypothesis | exact Hs]. }
      exists j, (flags ++ [state fin]). rewrite app_assoc.
      repeat split; auto.
      apply Forall_app. split; [exact Hf | constructor; [exact Hh | constructor]].
Qed.

(** From a state other than fair, when the fair product is the larger one,
    the pass moves to fair without drawing. *)
Lemma loop_body_back_to_fair (st : loop_state) :
  0 < gl -> gl <= gf -> state st <> 0%Z ->
  body st = Ok (mk_loop_state 0 (thetas st ++ [0%Z]) (draws_used st)).
Proof.
  intros Hl Hle Hs.
  assert (Hp : propose (state st) = 0%Z).
  { unfold propose. destruct (Z.eqb_spec (state st) 0); congruence. }
  rewrite (loop_body_sure _ _ _ _ uniform st (gf / gl)).
  - now rewrite Hp.
  - rewrite Hp. apply get_alpha_0. lra.
  - apply Qle_shift_div_l; [exact Hl | lra].
Qed.

(** The count of loaded samples along a run, when the fair product is the
    larger one: twice the count is at most the number of passes, plus one
    while the chain sits in the loaded state. *)
Lemma loaded_count_invariant (k : nat) (s0 : Z) :
  0 < gl -> gl <= gf ->
  exists fin,
    run k (mk_loop_state s0 [] 0) = Ok fin /\
    length (thetas fin) = k /\
    (2 * length (filter (fun theta => (theta =? 1)%Z) (thetas fin))
     <= k + (if (state fin =? 1)%Z then 1 else 0))%nat.
Proof.
  intros Hl Hle. induction k as [|k IH].
  - eexists. split; [reflexivity|]. cbn. split; [reflexivity|].
    destruct (s0 =? 1)%Z; lia.
  - destruct IH as (st & Hrun & Hlen & Hcount).
    rewrite iterate_succ, Hrun. cbn [bind].
    destruct (loop_body_total likelihood_if_fair prior_fair
                likelihood_if_loaded prior_loaded uniform st)
      as [fin Hb]; [lra | lra |].
    exists fin. split; [exact Hb|].
    destruct (loop_body_shape _ _ _ _ _ _ _ Hb) as (Hrec & _ & _).
    rewrite Hrec, filter_app, !length_app, Hlen. cbn [filter length].
    split; [lia|].
    destruct (Z.eqb_spec (state fin) 1) as [H1 | H1]; cbn [length app].
    + destruct (Z.eqb_spec (state st) 1) as [Hs | Hs]; [|lia].
      rewrite loop_body_back_to_fair in Hb by (assumption || lia).
      injection Hb as <-. cbn in H1. discriminate.
    + destruct (state st =? 1)%Z; lia.
Qed.

(** X7.  When the fair product is at least the loaded one (as for the
    notebook's coin), a pass that starts anywhere but in the fair state ends
    in the fair state without drawing, so loaded samples never come twice in
    a row: a trace of [k] samples holds at most (k + 1) / 2 of them,
    whatever the draws and the initial state. *)
Theorem loaded_at_most_half (k : nat) (s0 : Z) :
  0 < gl -> gl <= gf ->
  (forall st, state st <> 0%Z ->
     loop_body likelihood_if_fair prior_fair likelihood_if_loaded
       prior_loaded uniform st
     = Ok (mk_loop_state 0 (thetas st ++ [0%Z]) (draws_used st))) /\
  exists fin,
    iterate likelihood_if_fair prior_fair likelihood_if_loaded
      prior_loaded uniform k (mk_loop_state s0 [] 0) = Ok fin /\
    length (thetas fin) = k /\
    (2 * length (filter (fun theta => (theta =? 1)%Z) (thetas fin))
     <= k + 1)%nat.
Proof.
  intros Hl Hle.
  split; [intros st Hs; now apply loop_body_back_to_fair|].
  destruct (loaded_count_invariant k s0 Hl Hle) as (fin & Hrun & Hlen & Hcount).
  exists fin. repeat split; try assumption.
  destruct (state fin =? 1)%Z; lia.
Qed.

(** X9.  With equal products both ratios are exactly 1 and the test
    [alpha >= 1] takes the branch that does not draw: from a flag [s0] the
    chain alternates, sample [i] being the other flag for even [i] and [s0]
    for odd [i], and no draw is ever consumed. *)
Theorem equal_weights_alternate (k : nat) (s0 : Z) :
  gf == gl -> ~ gf == 0 -> is_hypothesis s0 ->
  exists fin,
    run k (mk_loop_state s0 [] 0) = Ok fin /\
    draws_used fin = 0%nat /\
    state fin = (if Nat.even k then s0 else propose s0) /\
    forall i : nat, (i < k)%nat ->
      nth_error (thetas fin) i
      = Some (if Nat.even i then propose s0 else s0).
Proof.
  intros Heq Hf Hs0.
  assert (Hl : ~ gl == 0) by (rewrite <- Heq; exact Hf).
  assert (Hpp : propose (propose s0) = s0)
    by (destruct Hs0 as [-> | ->]; reflexivity).
  destruct (ratio_of_equals gf gl Heq Hf) as [Hup Hdown].
  assert (Hsure : forall st,
            body st = Ok (mk_loop_state (propose (state st))
                            (thetas st ++ [propose (state st)])
                            (draws_used st))).
  { intros st. unfold get_alpha in *.
    destruct (propose (state st) =? 1)%Z eqn:E.
    - apply (loop_body_sure _ _ _ _ uniform st (gl / gf)); [|exact Hup].
      unfold get_alpha. rewrite E. now apply np_div_products.
    - apply (loop_body_sure _ _ _ _ uniform st (gf / gl)); [|exact Hdown].
      unfold get_alpha. rewrite E. now apply np_div_products. }
  induction k as [|k IH].
  - eexists. split; [reflexivity|]. cbn. repeat split. intros i Hi. lia.
  - destruct IH as (st & Hrun & Hd & Hst & Hnth).
    destruct (iterate_trace _ _ _ _ _ _ _ _ Hrun) as (samples & Hsam & Hlen).
    cbn [thetas app] in Hsam.
    eexists. split; [rewrite iterate_succ, Hrun; cbn [bind]; apply Hsure|].
    cbn [state thetas draws_used]. split; [exact Hd|].
    assert (Hnext : propose (state st)
                    = if Nat.even k then propose s0 else s0).
    { rewrite Hst. destruct (Nat.even k); [reflexivity | exact Hpp]. }
    split.
    + rewrite Hnext, Nat.even_succ, <- Nat.negb_even.
      destruct (Nat.even k); reflexivity.
    + intros i Hi. destruct (Nat.eq_dec i k) as [-> | Hne].
      * rewrite nth_error_app2 by (rewrite Hsam; lia).
        rewrite Hsam, Hlen, Nat.sub_diag. cbn. now rewrite Hnext.
      * rewrite nth_error_app1 by (rewrite Hsam; lia).
        apply Hnth. lia.
Qed.

(** X10.  A zero loaded product (of a non-negative likelihood and prior)
    with a positive fair one.  The ratio asked for in the fair state is 0
    and the ratio asked for anywhere else is a positive number over +0.0,
    that is inf, with a warning and no exception.  So (a) a pass from any
    state but fair moves to fair without drawing, inf passing the test
    [alpha >= 1]; (b) from fair, while every draw is positive, every
    proposal is rejected and the run returns an all-fair trace, one draw per
    pass; (c) but a draw of exactly 0 passes the test [u <= alpha] and moves
    the chain to loaded, from where the next pass brings it back. *)
Theorem zero_weight_edge :
  0 <= likelihood_if_loaded -> 0 <= prior_loaded ->
  gl == 0 -> 0 < gf ->
  (forall st, state st <> 0%Z ->
     loop_body likelihood_if_fair prior_fair likelihood_if_loaded
       prior_loaded uniform st
     = Ok (mk_loop_state 0 (thetas st ++ [0%Z]) (draws_used st))) /\
  ((forall i, 0 < uniform i) ->
   forall (k : nat) (t : list Z) (d : nat),
     iterate likelihood_if_fair prior_fair likelihood_if_loaded
       prior_loaded uniform k (mk_loop_state 0 t d)
     = Ok (mk_loop_state 0 (t ++ repeat 0%Z k) (d + k))) /\
  (forall (t : list Z) (d : nat),
     uniform d <= 0 ->
     loop_body likelihood_if_fair prior_fair likelihood_if_loaded
       prior_loaded uniform (mk_loop_state 0 t d)
     = Ok (mk_loop_state 1 (t ++ [1%Z]) (S d)) /\
     iterate likelihood_if_fair prior_fair likelihood_if_loaded
       prior_loaded uniform 2 (mk_loop_state 0 t d)
     = Ok (mk_loop_state 0 (t ++ [1%Z; 0%Z]) (S d))).
Proof.
  intros Hll Hpl Hl Hf.
  assert (Hzero : gl / gf == 0)
    by (unfold Qdiv; rewrite Hl; apply Qmult_0_l).
  assert (Ha : alpha_of 1%Z = Ok (gl / gf)) by (apply get_alpha_1; lra).
  assert (Hinf : alpha_of 0%Z = NonFinite inf).
  { unfold get_alpha. cbn [Z.eqb]. unfold np_div, np_mul, of_Q.
    cbn [val sign].
    apply Qeq_bool_iff in Hl. rewrite Hl.
    destruct (Qeq_bool gf 0) eqn:E; [apply Qeq_bool_iff in E; lra|].
    rewrite negative_product by lra.
    assert (N1 : negative gf = false) by (apply negative_false; lra).
    assert (N2 : negative likelihood_if_loaded = false)
      by (now apply negative_false).
    assert (N3 : negative prior_loaded = false)
      by (now apply negative_false).
    now rewrite N1, N2, N3. }
  assert (Hback : forall st, state st <> 0%Z ->
                    body st = Ok (mk_loop_state 0 (thetas st ++ [0%Z])
                                    (draws_used st))).
  { intros st Hs.
    assert (Hp : propose (state st) = 0%Z).
    { unfold propose. destruct (Z.eqb_spec (state st) 0); congruence. }
    rewrite loop_body_inf by (rewrite Hp; exact Hinf). now rewrite Hp. }
  split; [exact Hback|]. split.
  - intros Hu k t d.
    apply (rejected_draws_stay_fair _ _ _ _ uniform (gl / gf)).
    + exact Ha.
    + rewrite Hzero. reflexivity.
    + intros i. rewrite Hzero. apply Hu.
  - intros t d Hu.
    assert (Hb : body (mk_loop_state 0 t d)
                 = Ok (mk_loop_state 1 (t ++ [1%Z]) (S d))).
    { apply (loop_body_accept _ _ _ _ uniform (mk_loop_state 0 t d) (gl / gf)).
      - exact Ha.
      - rewrite Hzero. reflexivity.
      - cbn. rewrite Hzero. exact Hu. }
    split; [exact Hb|].
    cbn [iterate]. rewrite Hb. cbn [bind].
    rewrite Hback by (cbn; discriminate).
    cbn [bind thetas draws_used]. now rewrite <- app_assoc.
Qed.

End Traces.

(** ** Cell 5: the empirical posterior *)

Lemma count_true_map (f : Z -> bool) (l : list Z) :
  length (filter (fun b : bool => b) (map f l)) = length (filter f l).
Proof.
  induction l as [|x l IH]; cbn; [reflexivity|].
  destruct (f x); cbn; congruence.
Qed.

(** The mean of an indicator over a non-empty trace is a count over the
    length. *)
Lemma np_mean_map (f : Z -> bool) (l : list Z) :
  l <> [] ->
  np_mean (map f l)
  = Some (inject_Z (Z.of_nat (length (filter f l)))
          / inject_Z (Z.of_nat (length l)))%Q.
Proof.
  intros Hne. rewrite <- count_true_map, <- (length_map f l).
  destruct l as [|x l]; [congruence|]. reflexivity.
Qed.

(** The two counts of cell 5 never overlap, and together they cover the
    trace exactly when it holds nothing but the two flags. *)
Lemma count_flags (l : list Z) :
  (length (filter (fun theta => (theta =? 1)%Z) l)
   + length (filter (fun theta => (theta =? 0)%Z) l) <= length l)%nat /\
  ((length (filter (fun theta => (theta =? 1)%Z) l)
    + length (filter (fun theta => (theta =? 0)%Z) l) = length l)%nat
   <-> Forall is_hypothesis l).
Proof.
  induction l as [|x l [IHle IHiff]]; cbn [filter length].
  - split; [lia|]. split; [constructor | reflexivity].
  - destruct (Z.eqb_spec x 1) as [H1 | H1];
      destruct (Z.eqb_spec x 0) as [H0 | H0]; cbn [length]; try lia.
    + split; [lia|]. split.
      * intros H. constructor; [right; exact H1 | apply IHiff; lia].
      * intros H. inversion H as [|? ? _ Hl]; subst. apply IHiff in Hl. lia.
    + split; [lia|]. split.
      * intros H. constructor; [left; exact H0 | apply IHiff; lia].
      * intros H. inversion H as [|? ? _ Hl]; subst. apply IHiff in Hl. lia.
    + split; [lia|]. split.
      * intros H. lia.
      * intros H. inversion H as [|? ? [Hx | Hx] ?]; subst; contradiction.
Qed.

(** X8.  For a non-empty trace cell 5 returns two fractions, both
    non-negative, whose sum is at most 1; the sum is exactly 1 if and only
    if every sample is one of the flags 0 and 1 (a third value is counted
    in neither).  For the empty trace both means are nan. *)
Theorem empirical_posterior_complement (samples : list Z) :
  samples <> [] ->
  p_loaded [] = None /\ p_fair [] = None /\
  exists p_l p_f,
    p_loaded samples = Some p_l /\
    p_fair samples = Some p_f /\
    (0 <= p_l)%Q /\ (0 <= p_f)%Q /\
    (p_l + p_f <= 1)%Q /\
    ((p_l + p_f == 1)%Q <-> Forall is_hypothesis samples).
Proof.
  intros Hne. split; [reflexivity|]. split; [reflexivity|].
  destruct (count_flags samples) as [Hle Hiff].
  unfold p_loaded, p_fair. rewrite !np_mean_map by exact Hne.
  set (c1 := length (filter (fun theta => theta =? 1) samples)) in *.
  set (c0 := length (filter (fun theta => theta =? 0) samples)) in *.
  set (n := length samples) in *.
  assert (Hn : (0 < n)%nat)
    by (unfold n; destruct samples; [congruence | cbn; lia]).
  clearbody c1 c0 n.
  assert (HN : (0 < inject_Z (Z.of_nat n))%Q)
    by (rewrite <- (Zlt_Qlt 0); lia).
  assert (H1 : (0 <= inject_Z (Z.of_nat c1))%Q)
    by (rewrite <- (Zle_Qle 0); lia).
  assert (H0 : (0 <= inject_Z (Z.of_nat c0))%Q)
    by (rewrite <- (Zle_Qle 0); lia).
  assert (Hsum : (inject_Z (Z.of_nat c1) / inject_Z (Z.of_nat n)
                  + inject_Z (Z.of_nat c0) / inject_Z (Z.of_nat n)
                  == inject_Z (Z.of_nat (c1 + c0)) / inject_Z (Z.of_nat n))%Q).
  { rewrite Nat2Z.inj_add, inject_Z_plus. field. lra. }
  do 2 eexists. split; [reflexivity|]. split; [reflexivity|].
  split; [apply Qle_shift_div_l; [exact HN | lra]|].
  split; [apply Qle_shift_div_l; [exact HN | lra]|].
  rewrite Hsum. split.
  - apply Qle_shift_div_r; [exact HN|].
    rewrite Qmult_1_l, <- Zle_Qle. lia.
  - rewrite <- Hiff. split.
    + intros H.
      assert (H' : (inject_Z (Z.of_nat (c1 + c0)) == inject_Z (Z.of_nat n))%Q).
      { transitivity (inject_Z (Z.of_nat (c1 + c0)) / inject_Z (Z.of_nat n)
                      * inject_Z (Z.of_nat n))%Q; [field; lra|].
        rewrite H. ring. }
      apply (proj1 (inject_Z_injective _ _)) in H'. lia.
    + intros H. rewrite H. field. lra.
Qed.

(** ** Cells 6-8: the matrix [P] *)

(** X12.  [P] maps a vector of two numbers that sum to 1 to another such
    vector, keeps probabilities in [0, 1], and moves the first entry towards
    200/327 (about 0.61162), the distance being multiplied by 0.635 and
    changing side at each product; the only such vector that [P] leaves
    unchanged is (200/327, 127/327). *)
Theorem P_contracts (p q : Q) :
  (p + q == 1)%Q ->
  exists p' q',
    matmul [p; q] P = [p'; q'] /\
    (p' + q' == 1)%Q /\
    (p' - (200 # 327) == - 0.635 * (p - (200 # 327)))%Q /\
    ((0 <= p <= 1)%Q -> (0 <= p' <= 1)%Q /\ (0 <= q' <= 1)%Q) /\
    (Forall2 Qeq [p'; q'] [p; q] <-> (p == (200 # 327))%Q).
Proof.
  intros Hsum. do 2 eexists. split; [reflexivity|].
  split; [lra|]. split; [lra|]. split; [intros Hp; lra|].
  split.
  - intros H. inversion H as [|? ? ? ? Hp _]; subst. lra.
  - intros Hp. constructor; [lra|]. constructor; [lra|]. constructor.
Qed.

(** ** Cells 3 and 4: what the sampler is insensitive to *)





(** With a zero fair likelihood (given as +0.0) the loaded likelihoods 1
    and -1 give different runs: the ratio 1/0 is inf and the proposal is
    accepted, the ratio -1/0 is -inf and it is rejected.  So the factor -1
    is harmless only when no product is zero. *)
Lemma negative_factor_with_zero :
  mcmc 0%Q 1%Q 1%Q 1%Q half 1 0 = Ok (mk_loop_state 1 [1] 0) /\
  mcmc 0%Q 1%Q (-1)%Q 1%Q half 1 0 = Ok (mk_loop_state 0 [0] 1).
Proof. split; vm_compute; reflexivity. Qed.


(** Exchanging the roles of the two hypotheses in one pass. *)
Lemma loop_body_swap (lf pf ll pl : Q) (uniform : nat -> Q)
  (s : Z) (t : list Z) (d : nat) :
  is_hypothesis s ->
  loop_body ll pl lf pf uniform
    (mk_loop_state (1 - s) (map (fun theta => 1 - theta) t) d)
  = (st' <- loop_body lf pf ll pl uniform (mk_loop_state s t d) ;;
     Ok (mk_loop_state (1 - state st')
           (map (fun theta => 1 - theta) (thetas st')) (draws_used st'))).
Proof.
  intros [-> | ->].
  - change (1 - 0) with 1. unfold loop_body. cbn [state thetas draws_used].
    change (propose 1) with 0. change (propose 0) with 1.
    change (get_alpha 0 ll pl lf pf)
      with (np_div (np_mul ll pl) (np_mul lf pf)).
    change (get_alpha 1 lf pf ll pl)
      with (np_div (np_mul ll pl) (np_mul lf pf)).
    destruct (ge_1 _); [|destruct (le_alpha _ _)];
      cbn [bind state thetas draws_used]; rewrite map_app; reflexivity.
  - change (1 - 1) with 0. unfold loop_body. cbn [state thetas draws_used].
    change (propose 1) with 0. change (propose 0) with 1.
    change (get_alpha 1 ll pl lf pf)
      with (np_div (np_mul lf pf) (np_mul ll pl)).
    change (get_alpha 0 lf pf ll pl)
      with (np_div (np_mul lf pf) (np_mul ll pl)).
    destruct (ge_1 _); [|destruct (le_alpha _ _)];
      cbn [bind state thetas draws_used]; rewrite map_app; reflexivity.
Qed.

Lemma iterate_swap (lf pf ll pl : Q) (uniform : nat -> Q) (k : nat) :
  forall (s : Z) (t : list Z) (d : nat),
    is_hypothesis s ->
    iterate ll pl lf pf uniform k
      (mk_loop_state (1 - s) (map (fun theta => 1 - theta) t) d)
    = (fin <- iterate lf pf ll pl uniform k (mk_loop_state s t d) ;;
       Ok (mk_loop_state (1 - state fin)
             (map (fun theta => 1 - theta) (thetas fin)) (draws_used fin))).
Proof.
  induction k as [|k IH]; intros s t d Hs; cbn [iterate]; [reflexivity|].
  rewrite (loop_body_swap lf pf ll pl uniform s t d Hs).
  destruct (loop_body lf pf ll pl uniform (mk_loop_state s t d))
    as [[s1 t1 d1]|e] eqn:E; cbn [bind state thetas draws_used];
    [|reflexivity].
  apply IH.
  destruct (loop_body_shape _ _ _ _ _ _ _ E) as (_ & [Hm | Hm] & _);
    cbn [state] in Hm; rewrite Hm; [apply propose_hypothesis | exact Hs].
Qed.

(** X15.  The loop treats the two flags alike: exchanging the fair and the
    loaded numbers and starting from the other flag gives, for the same
    draws, the same run with every flag exchanged. *)
Theorem labels_symmetric
  (likelihood_if_fair prior_fair likelihood_if_loaded prior_loaded : Q)
  (uniform : nat -> Q) (iterations initial_state : Z) :
  is_hypothesis initial_state ->
  mcmc likelihood_if_loaded prior_loaded likelihood_if_fair prior_fair
    uniform iterations (1 - initial_state)
  = (fin <- mcmc likelihood_if_fair prior_fair likelihood_if_loaded
              prior_loaded uniform iterations initial_state ;;
     Ok (mk_loop_state (1 - state fin)
           (map (fun theta => 1 - theta) (thetas fin)) (draws_used fin))).
Proof.
  intros Hs. unfold mcmc.
  apply (iterate_swap likelihood_if_fair prior_fair likelihood_if_loaded
           prior_loaded uniform (Z.to_nat iterations) initial_state [] 0 Hs).
Qed.

(** ** Cells 2 to 5 as written *)

(** X13.  The notebook's own run, for every stream of draws and either
    initial state: cell 4 returns without raising, with 10000 samples, all
    of them flags 0 or 1, after at most 10000 draws; and since the fair
    product (0.125) exceeds the loaded one (0.07938) the fraction that cell
    5 prints for P(loaded) is at most 1/2. *)
Theorem mcmc_cell_returns (uniform : nat -> Q) (coin : bool) :
  exists fin p_l,
    mcmc_cell Notebook.likelihood_if_fair Notebook.prior_fair
      Notebook.likelihood_if_loaded Notebook.prior_loaded uniform coin
    = Ok fin /\
    Z.of_nat (length (thetas fin)) = 10000 /\
    Forall is_hypothesis (thetas fin) /\
    is_hypothesis (state fin) /\
    Z.of_nat (draws_used fin) <= 10000 /\
    p_loaded (thetas fin) = Some p_l /\
    (p_l <= 1 # 2)%Q.
Proof.
  unfold mcmc_cell, mcmc.
  remember (Z.to_nat 10000) as k eqn:Hk.
  assert (Hk' : Z.of_nat k = 10000) by (subst k; apply Z2Nat.id; lia).
  clear Hk.
  destruct (loaded_count_invariant Notebook.likelihood_if_fair
              Notebook.prior_fair Notebook.likelihood_if_loaded
              Notebook.prior_loaded uniform k (randint_0_2 coin))
    as (fin & Hrun & Hlen & Hcount);
    [vm_compute; reflexivity | vm_compute; discriminate |].
  assert (Hcoin : is_hypothesis (randint_0_2 coin))
    by (destruct coin; [right | left]; reflexivity).
  destruct (iterate_hypothesis _ _ _ _ _ _
              (mk_loop_state (randint_0_2 coin) [] 0) _
              Hcoin (Forall_nil _) Hrun)
    as [Hstate Hflags].
  pose proof (iterate_draws_bound _ _ _ _ _ _ _ _ Hrun) as Hdraws.
  cbn [draws_used] in Hdraws.
  assert (Hne : thetas fin <> [])
    by (intros E; rewrite E in Hlen; cbn in Hlen; lia).
  eexists fin, _. split; [exact Hrun|].
  split; [lia|]. split; [exact Hflags|]. split; [exact Hstate|].
  split; [lia|].
  unfold p_loaded. split; [apply np_mean_map; exact Hne|].
  rewrite Hlen, Hk'.
  apply Qle_shift_div_r; [reflexivity|].
  unfold Qle. cbn [Qnum Qden inject_Z Qmult].
  destruct (state fin =? 1); lia.
Qed.

(** ** The further properties at concrete inputs *)

Lemma get_alpha_reciprocal_witness :
  exists alpha_loaded alpha_fair,
    nb_alpha 1 = Ok alpha_loaded /\
    nb_alpha 0 = Ok alpha_fair /\
    (alpha_loaded * alpha_fair == 1)%Q /\
    ((0 < Notebook.likelihood_if_fair * Notebook.prior_fair)%Q ->
     (0 < Notebook.likelihood_if_loaded * Notebook.prior_loaded)%Q ->
     (1 <= alpha_loaded)%Q \/ (1 <= alpha_fair)%Q).
Proof.
  apply (get_alpha_reciprocal Notebook.likelihood_if_fair Notebook.prior_fair
           Notebook.likelihood_if_loaded Notebook.prior_loaded);
    nonzero.
Defined.

Lemma alpha_is_posterior_ratio_witness :
  exists alpha_loaded alpha_fair p_f p_l,
    nb_alpha 1 = Ok alpha_loaded /\
    nb_alpha 0 = Ok alpha_fair /\
    posterior_fair Notebook.likelihood_if_fair Notebook.prior_fair
      Notebook.likelihood_if_loaded Notebook.prior_loaded = Ok p_f /\
    posterior_loaded Notebook.likelihood_if_fair Notebook.prior_fair
      Notebook.likelihood_if_loaded Notebook.prior_loaded = Ok p_l /\
    (alpha_loaded * p_f == p_l)%Q /\
    (alpha_fair * p_l == p_f)%Q.
Proof.
  apply (alpha_is_posterior_ratio Notebook.likelihood_if_fair
           Notebook.prior_fair Notebook.likelihood_if_loaded
           Notebook.prior_loaded);
    nonzero.
Defined.

(** The notebook's coin, two zero likelihoods, and two products that
    cancel. *)
Lemma posterior_sums_to_one_witness :
  (exists p_f p_l,
     posterior_fair Notebook.likelihood_if_fair Notebook.prior_fair
       Notebook.likelihood_if_loaded Notebook.prior_loaded = Ok p_f /\
     posterior_loaded Notebook.likelihood_if_fair Notebook.prior_fair
       Notebook.likelihood_if_loaded Notebook.prior_loaded = Ok p_l /\
     (p_f + p_l == 1)%Q /\
     ((0 <= Notebook.likelihood_if_fair * Notebook.prior_fair)%Q ->
      (0 <= Notebook.likelihood_if_loaded * Notebook.prior_loaded)%Q ->
      (0 <= p_f <= 1)%Q /\ (0 <= p_l <= 1)%Q)) /\
  (posterior_fair 0%Q Notebook.prior_fair 0%Q Notebook.prior_loaded
   = NonFinite nan /\
   posterior_loaded 0%Q Notebook.prior_fair 0%Q Notebook.prior_loaded
   = NonFinite nan) /\
  (posterior_fair 0.5%Q 0.5%Q 0.5%Q (-0.5)%Q = NonFinite inf /\
   posterior_loaded 0.5%Q 0.5%Q 0.5%Q (-0.5)%Q = NonFinite neg_inf).
Proof.
  split; [|split].
  - apply (proj1 (posterior_sums_to_one Notebook.likelihood_if_fair
                    Notebook.prior_fair Notebook.likelihood_if_loaded
                    Notebook.prior_loaded)).
    nonzero.
  - apply (proj1 (proj2 (posterior_sums_to_one 0%Q Notebook.prior_fair 0%Q
                           Notebook.prior_loaded) ltac:(reflexivity))).
    reflexivity.
  - apply (proj1 (proj2 (proj2 (posterior_sums_to_one 0.5%Q 0.5%Q 0.5%Q
                                  (-0.5)%Q) ltac:(reflexivity)))).
    reflexivity.
Defined.

(** Three passes read at most the first three draws. *)
Lemma run_draw_window_witness :
  nb_run half 3 (mk_loop_state 0 [] 0)
  = nb_run (fun i => if (i <? 3)%nat then 0.5 else 0.9)%Q 3
      (mk_loop_state 0 [] 0) /\
  forall fin, nb_run half 3 (mk_loop_state 0 [] 0) = Ok fin ->
    (0 <= draws_used fin <= 0 + 3)%nat.
Proof.
  apply (run_draw_window Notebook.likelihood_if_fair Notebook.prior_fair
           Notebook.likelihood_if_loaded Notebook.prior_loaded
           half (fun i => if (i <? 3)%nat then 0.5 else 0.9)%Q 3
           (mk_loop_state 0 [] 0)).
  intros i Hi. cbn in Hi.
  destruct i as [|[|[|i]]]; [reflexivity | reflexivity | reflexivity | lia].
Defined.

(** A start at 2 with the two products exchanged: two rejections record 2,
    then the chain is on the flags. *)
Lemma samples_from_any_start_witness :
  exists (j : nat) (flags : list Z),
    [2; 2; 0; 1] = repeat 2 j ++ flags /\
    Forall is_hypothesis flags /\
    ((1 = 2 /\ flags = []) \/ is_hypothesis 1).
Proof.
  apply (samples_from_any_start Notebook.likelihood_if_loaded
           Notebook.prior_loaded Notebook.likelihood_if_fair
           Notebook.prior_fair
           (fun i => if (i <? 2)%nat then 0.9 else 0.5)%Q
           4 2 (mk_loop_state 1 [2; 2; 0; 1] 3)).
  vm_compute. reflexivity.
Defined.

Lemma loaded_at_most_half_witness :
  (forall st, state st <> 0 ->
     nb_body half st
     = Ok (mk_loop_state 0 (thetas st ++ [0]) (draws_used st))) /\
  exists fin,
    nb_run half 5 (mk_loop_state 1 [] 0) = Ok fin /\
    length (thetas fin) = 5%nat /\
    (2 * length (filter (fun theta => (theta =? 1)%Z) (thetas fin)) <= 5 + 1)%nat.
Proof.
  apply (loaded_at_most_half Notebook.likelihood_if_fair Notebook.prior_fair
           Notebook.likelihood_if_loaded Notebook.prior_loaded half 5 1).
  - vm_compute. reflexivity.
  - vm_compute. discriminate.
Defined.

(** Four passes with all four numbers equal to one half. *)
Lemma equal_weights_alternate_witness :
  exists fin,
    iterate 0.5%Q 0.5%Q 0.5%Q 0.5%Q half 4 (mk_loop_state 0 [] 0) = Ok fin /\
    draws_used fin = 0%nat /\
    state fin = (if Nat.even 4 then 0 else propose 0) /\
    forall i : nat, (i < 4)%nat ->
      nth_error (thetas fin) i = Some (if Nat.even i then propose 0 else 0).
Proof.
  apply (equal_weights_alternate 0.5%Q 0.5%Q 0.5%Q 0.5%Q half 4 0).
  - reflexivity.
  - nonzero.
  - left. reflexivity.
Defined.

(** A zero loaded likelihood: positive draws, then a draw equal to 0. *)
Lemma zero_weight_edge_witness :
  (forall (k : nat) (t : list Z) (d : nat),
     iterate Notebook.likelihood_if_fair Notebook.prior_fair 0%Q
       Notebook.prior_loaded half k (mk_loop_state 0 t d)
     = Ok (mk_loop_state 0 (t ++ repeat 0 k) (d + k))) /\
  (loop_body Notebook.likelihood_if_fair Notebook.prior_fair 0%Q
     Notebook.prior_loaded (fun _ => 0%Q) (mk_loop_state 0 [] 0)
   = Ok (mk_loop_state 1 [1] 1) /\
   iterate Notebook.likelihood_if_fair Notebook.prior_fair 0%Q
     Notebook.prior_loaded (fun _ => 0%Q) 2 (mk_loop_state 0 [] 0)
   = Ok (mk_loop_state 0 [1; 0] 1)).
Proof.
  split.
  - apply (proj1 (proj2 (zero_weight_edge Notebook.likelihood_if_fair
                           Notebook.prior_fair 0%Q Notebook.prior_loaded
                           half ltac:(vm_compute; discriminate)
                           ltac:(vm_compute; discriminate)
                           ltac:(reflexivity) ltac:(reflexivity)))).
    intros i. reflexivity.
  - apply (proj2 (proj2 (zero_weight_edge Notebook.likelihood_if_fair
                           Notebook.prior_fair 0%Q Notebook.prior_loaded
                           (fun _ => 0%Q) ltac:(vm_compute; discriminate)
                           ltac:(vm_compute; discriminate)
                           ltac:(reflexivity) ltac:(reflexivity)))
             [] 0%nat).
    vm_compute. discriminate.
Defined.

(** A trace with a third value in it. *)
Lemma empirical_posterior_complement_witness :
  p_loaded [] = None /\ p_fair [] = None /\
  exists p_l p_f,
    p_loaded [0; 1; 1; 2] = Some p_l /\
    p_fair [0; 1; 1; 2] = Some p_f /\
    (0 <= p_l)%Q /\ (0 <= p_f)%Q /\
    (p_l + p_f <= 1)%Q /\
    ((p_l + p_f == 1)%Q <-> Forall is_hypothesis [0; 1; 1; 2]).
Proof.
  apply (empirical_posterior_complement [0; 1; 1; 2]).
  discriminate.
Defined.

(** The vector [pi_s] of cell 7. *)
Lemma P_contracts_witness :
  exists p' q',
    matmul [0.61520; 0.38480]%Q P = [p'; q'] /\
    (p' + q' == 1)%Q /\
    (p' - (200 # 327) == - 0.635 * (0.61520 - (200 # 327)))%Q /\
    ((0 <= 0.61520 <= 1)%Q -> (0 <= p' <= 1)%Q /\ (0 <= q' <= 1)%Q) /\
    (Forall2 Qeq [p'; q'] [0.61520; 0.38480]%Q <-> (0.61520 == (200 # 327))%Q).
Proof.
  apply (P_contracts 0.61520%Q 0.38480%Q).
  reflexivity.
Defined.

Lemma posterior_stationary_witness :
  exists pi_fair pi_loaded T_fair T_loaded : Q,
    posterior Notebook.likelihood_if_fair Notebook.prior_fair
      Notebook.likelihood_if_loaded Notebook.prior_loaded 0 = Ok pi_fair /\
    posterior Notebook.likelihood_if_fair Notebook.prior_fair
      Notebook.likelihood_if_loaded Notebook.prior_loaded 1 = Ok pi_loaded /\
    T Notebook.likelihood_if_fair Notebook.prior_fair
      Notebook.likelihood_if_loaded Notebook.prior_loaded 0 = Ok T_fair /\
    T Notebook.likelihood_if_fair Notebook.prior_fair
      Notebook.likelihood_if_loaded Notebook.prior_loaded 1 = Ok T_loaded /\
    Forall2 Qeq (matmul [pi_fair; pi_loaded] (chain_matrix T_fair T_loaded))
      [pi_fair; pi_loaded].
Proof.
  apply (posterior_stationary Notebook.likelihood_if_fair Notebook.prior_fair
           Notebook.likelihood_if_loaded Notebook.prior_loaded).
  - vm_compute. reflexivity.
  - vm_compute. reflexivity.
Defined.


(** The notebook's coin with the labels exchanged. *)
Lemma labels_symmetric_witness :
  mcmc Notebook.likelihood_if_loaded Notebook.prior_loaded
    Notebook.likelihood_if_fair Notebook.prior_fair half 4 (1 - 0)
  = (fin <- nb_mcmc half 4 0 ;;
     Ok (mk_loop_state (1 - state fin)
           (map (fun theta => 1 - theta) (thetas fin)) (draws_used fin))).
Proof.
  apply (labels_symmetric Notebook.likelihood_if_fair Notebook.prior_fair
           Notebook.likelihood_if_loaded Notebook.prior_loaded half 4 0).
  left. reflexivity.
Defined.

(** * The law of the chain *)

(** ** Sums over lists *)

Section Totals.

Local Open Scope Q_scope.

Context {A : Type}.

Lemma total_app (f : A -> Q) (l l' : list A) :
  total f (l ++ l') == total f l + total f l'.
Proof.
  induction l as [|x l IH]; cbn [total app]; [ring|]. rewrite IH. ring.
Qed.

Lemma total_ext (f g : A -> Q) (l : list A) :
  (forall x, In x l -> f x == g x) -> total f l == total g l.
Proof.
  induction l as [|x l IH]; intros H; cbn [total]; [reflexivity|].
  rewrite (H x) by (left; reflexivity).
  rewrite IH by (intros y Hy; apply H; right; exact Hy). reflexivity.
Qed.

Lemma total_const (v : Q) (l : list A) :
  total (fun _ => v) l == inject_Z (Z.of_nat (length l)) * v.
Proof.
  induction l as [|x l IH]; cbn [total length]; [ring|].
  rewrite IH, Nat2Z.inj_succ, <- Z.add_1_r, inject_Z_plus. ring.
Qed.

Lemma total_filter (b : A -> bool) (l : list A) :
  inject_Z (Z.of_nat (length (filter b l)))
  == total (fun x => if b x then 1 else 0) l.
Proof.
  induction l as [|x l IH]; cbn [total filter length]; [reflexivity|].
  destruct (b x); cbn [length]; rewrite <- IH.
  - rewrite Nat2Z.inj_succ, <- Z.add_1_r, inject_Z_plus. ring.
  - ring.
Qed.

(** A sum of terms that take one of two values. *)
Lemma total_two (b : A -> bool) (v w : Q) (l : list A) :
  total (fun x => if b x then v else w) l
  == inject_Z (Z.of_nat (length (filter b l))) * v
     + (inject_Z (Z.of_nat (length l))
        - inject_Z (Z.of_nat (length (filter b l)))) * w.
Proof.
  induction l as [|x l IH]; cbn [total filter length]; [ring|].
  rewrite IH. destruct (b x); cbn [length];
    rewrite !Nat2Z.inj_succ, <- !Z.add_1_r, !inject_Z_plus; ring.
Qed.

End Totals.

Lemma total_map {A B : Type} (f : B -> Q) (g : A -> B) (l : list A) :
  (total f (map g l) == total (fun x => f (g x)) l)%Q.
Proof.
  induction l as [|x l IH]; cbn [total map]; [reflexivity|].
  rewrite IH. reflexivity.
Qed.

Lemma total_flat_map {A B : Type} (f : B -> Q) (g : A -> list B)
  (l : list A) :
  (total f (flat_map g l) == total (fun x => total f (g x)) l)%Q.
Proof.
  induction l as [|x l IH]; cbn [total flat_map]; [reflexivity|].
  rewrite total_app, IH. reflexivity.
Qed.

(** ** Streams *)

Lemma streams_length_succ (N m : nat) :
  length (streams N (S m)) = (N * length (streams N m))%nat.
Proof.
  cbn [streams].
  assert (H : forall js : list nat,
            length (flat_map (fun j => map (cons j) (streams N m)) js)
            = (length js * length (streams N m))%nat).
  { induction js as [|j js IH]; cbn [flat_map length]; [reflexivity|].
    rewrite length_app, length_map, IH. cbn. lia. }
  rewrite H, length_seq. reflexivity.
Qed.

Lemma streams_nonempty (N m : nat) :
  (0 < N)%nat -> (0 < length (streams N m))%nat.
Proof.
  intros HN. induction m as [|m IH]; [cbn; lia|].
  rewrite streams_length_succ. nia.
Qed.

(** The sum over the streams of [m + 1] draws, by the first draw. *)
Lemma total_streams_succ (N m : nat) (f : list nat -> Q) :
  (total f (streams N (S m))
   == total (fun j => total (fun l => f (j :: l)) (streams N m)) (seq 0 N))%Q.
Proof.
  cbn [streams]. rewrite total_flat_map.
  apply total_ext. intros j _. apply total_map.
Qed.

(** ** Runs over all streams of draws *)

Section Link.

Variables likelihood_if_fair prior_fair likelihood_if_loaded prior_loaded : Q.
Variable N : nat.

Local Abbreviation alpha_of theta :=
  (get_alpha theta likelihood_if_fair prior_fair
     likelihood_if_loaded prior_loaded).
Local Abbreviation body :=
  (loop_body likelihood_if_fair prior_fair
     likelihood_if_loaded prior_loaded).
Local Abbreviation run :=
  (iterate likelihood_if_fair prior_fair
     likelihood_if_loaded prior_loaded).
Local Abbreviation mean_ :=
  (mean likelihood_if_fair prior_fair
     likelihood_if_loaded prior_loaded N).
Local Abbreviation size m := (inject_Z (Z.of_nat (length (streams N m)))).

(** A pass that starts one draw later reads the stream one place further. *)
Lemma loop_body_shift (uniform : nat -> Q) (s : Z) (t : list Z) (d : nat) :
  body uniform (mk_loop_state s t (S d))
  = (st' <- body (fun i => uniform (S i)) (mk_loop_state s t d) ;;
     Ok (mk_loop_state (state st') (thetas st') (S (draws_used st')))).
Proof.
  unfold loop_body. cbn [state thetas draws_used].
  destruct (ge_1 (alpha_of (propose s))); [reflexivity|].
  destruct (le_alpha (uniform (S d)) (alpha_of (propose s))); reflexivity.
Qed.

Lemma iterate_shift (uniform : nat -> Q) (k : nat) :
  forall (s : Z) (t : list Z) (d : nat),
    run uniform k (mk_loop_state s t (S d))
    = (fin <- run (fun i => uniform (S i)) k (mk_loop_state s t d) ;;
       Ok (mk_loop_state (state fin) (thetas fin) (S (draws_used fin)))).
Proof.
  induction k as [|k IH]; intros s t d; [reflexivity|].
  cbn [iterate]. rewrite loop_body_shift.
  destruct (body (fun i => uniform (S i)) (mk_loop_state s t d))
    as [[s1 t1 d1]|e]; cbn [bind state thetas draws_used]; [|reflexivity].
  apply IH.
Qed.

(** After the first draw [j], a run reads the rest of the stream. *)
Lemma observe_after_draw (phi : Z -> nat -> Q) (j : nat) (l : list nat)
  (k : nat) (s : Z) (t : list Z) :
  observe phi (run (draws_of N (j :: l)) k (mk_loop_state s t 1))
  = observe phi (run (draws_of N l) k (mk_loop_state s t 0)).
Proof.
  rewrite iterate_shift.
  change (fun i => draws_of N (j :: l) (S i)) with (draws_of N l).
  destruct (run (draws_of N l) k (mk_loop_state s t 0)) as [fin|e];
    reflexivity.
Qed.

Lemma count_loaded_snoc (t : list Z) (s : Z) :
  count_loaded (t ++ [s])
  = (count_loaded t + (if (s =? 1)%Z then 1 else 0))%nat.
Proof.
  unfold count_loaded. rewrite filter_app, length_app. cbn [filter].
  destruct (s =? 1); reflexivity.
Qed.

Lemma size_succ (m : nat) :
  (size (S m) == inject_Z (Z.of_nat N) * size m)%Q.
Proof.
  rewrite streams_length_succ, Nat2Z.inj_mul, inject_Z_mult. reflexivity.
Qed.

Lemma accept_share_count (alpha : result Q) :
  (0 < N)%nat ->
  (inject_Z (Z.of_nat N) * accept_share N alpha
   == inject_Z (Z.of_nat (length (filter
        (fun j => le_alpha (grid N j) alpha) (seq 0 N)))))%Q.
Proof.
  intros HN. unfold accept_share. field.
  intros H. apply (proj1 (inject_Z_injective _ 0)) in H. lia.
Qed.

(** The sum over all streams of what [phi] sees of a run of [k] passes is
    the number of streams times the mean: the draws that pass the test of
    line 146 are the share [move_share] of the grid, and the other passes
    read no draw. *)
Lemma total_runs (phi : Z -> nat -> Q) (k : nat) :
  (0 < N)%nat ->
  forall (m : nat) (s : Z) (t : list Z),
    (k <= m)%nat ->
    (total (fun l => observe phi
                       (run (draws_of N l) k (mk_loop_state s t 0)))
       (streams N m)
     == size m * mean_ k s (count_loaded t) phi)%Q.
Proof.
  intros HN. induction k as [|k IH]; intros m s t Hm.
  - cbn [iterate observe state thetas mean]. apply total_const.
  - cbn [mean]. unfold move_share.
    destruct (ge_1 (alpha_of (propose s))) eqn:Hge.
    + rewrite (total_ext _
        (fun l => observe phi (run (draws_of N l) k
           (mk_loop_state (propose s) (t ++ [propose s]) 0)))).
      * rewrite IH by lia. rewrite count_loaded_snoc. ring.
      * intros l _. cbn [iterate]. unfold loop_body.
        cbn [state thetas draws_used]. rewrite Hge. reflexivity.
    + destruct m as [|m]; [lia|].
      rewrite total_streams_succ.
      rewrite (total_ext _
        (fun j => if le_alpha (grid N j) (alpha_of (propose s))
                  then size m * mean_ k (propose s)
                         (count_loaded (t ++ [propose s])) phi
                  else size m * mean_ k s (count_loaded (t ++ [s])) phi)%Q).
      * rewrite total_two, length_seq, size_succ, !count_loaded_snoc.
        rewrite <- (accept_share_count _ HN). ring.
      * intros j _.
        destruct (le_alpha (grid N j) (alpha_of (propose s))) eqn:Hle.
        -- rewrite <- IH by lia. apply total_ext. intros l _.
           cbn [iterate]. unfold loop_body. cbn [state thetas draws_used].
           rewrite Hge.
           change (draws_of N (j :: l) 0%nat) with (grid N j).
           rewrite Hle. cbn [bind].
           rewrite observe_after_draw. reflexivity.
        -- rewrite <- IH by lia. apply total_ext. intros l _.
           cbn [iterate]. unfold loop_body. cbn [state thetas draws_used].
           rewrite Hge.
           change (draws_of N (j :: l) 0%nat) with (grid N j).
           rewrite Hle. cbn [bind].
           rewrite observe_after_draw. reflexivity.
Qed.

End Link.

(** ** Counts as rationals *)

Lemma inject_nat_nonneg (n : nat) : (0 <= inject_Z (Z.of_nat n))%Q.
Proof. change 0%Q with (inject_Z 0). rewrite <- Zle_Qle. lia. Qed.

Lemma inject_nat_pos (n : nat) :
  (0 < n)%nat -> (0 < inject_Z (Z.of_nat n))%Q.
Proof. intros H. change 0%Q with (inject_Z 0). rewrite <- Zlt_Qlt. lia. Qed.

Lemma inject_nat_le (n m : nat) :
  (n <= m)%nat -> (inject_Z (Z.of_nat n) <= inject_Z (Z.of_nat m))%Q.
Proof. intros H. rewrite <- Zle_Qle. lia. Qed.

Lemma inject_nat_succ (n : nat) :
  (inject_Z (Z.of_nat (S n)) == inject_Z (Z.of_nat n) + 1)%Q.
Proof. rewrite Nat2Z.inj_succ, <- Z.add_1_r, inject_Z_plus. reflexivity. Qed.

Lemma inject_nat_add (n m : nat) :
  (inject_Z (Z.of_nat (n + m))
   == inject_Z (Z.of_nat n) + inject_Z (Z.of_nat m))%Q.
Proof. rewrite Nat2Z.inj_add, inject_Z_plus. reflexivity. Qed.

(** ** The mean *)

Section Mean.

Local Open Scope Q_scope.

Variables likelihood_if_fair prior_fair likelihood_if_loaded prior_loaded : Q.
Variable N : nat.

Local Abbreviation alpha_of theta :=
  (get_alpha theta likelihood_if_fair prior_fair
     likelihood_if_loaded prior_loaded).
Local Abbreviation share :=
  (move_share likelihood_if_fair prior_fair
     likelihood_if_loaded prior_loaded N).
Local Abbreviation mean_ :=
  (mean likelihood_if_fair prior_fair
     likelihood_if_loaded prior_loaded N).

Lemma accept_share_range (alpha : result Q) :
  0 <= accept_share N alpha <= 1.
Proof.
  unfold accept_share.
  set (c := length (filter _ _)).
  assert (Hc : (c <= N)%nat).
  { unfold c. etransitivity; [apply filter_length_le|].
    rewrite length_seq. reflexivity. }
  clearbody c. destruct N as [|N'].
  - assert (c = 0%nat) by lia. subst c. vm_compute. split; discriminate.
  - assert (HN : 0 < inject_Z (Z.of_nat (S N'))).
    { apply inject_nat_pos. lia. }
    split.
    + apply Qle_shift_div_l; [exact HN|]. rewrite Qmult_0_l.
      apply inject_nat_nonneg.
    + apply Qle_shift_div_r; [exact HN|]. rewrite Qmult_1_l.
      apply inject_nat_le. exact Hc.
Qed.

Lemma move_share_range (s : Z) : 0 <= share s <= 1.
Proof.
  unfold move_share. destruct (ge_1 _); [lra|apply accept_share_range].
Qed.

Lemma mean_mono (phi psi : Z -> nat -> Q) :
  (forall x c, phi x c <= psi x c) ->
  forall k s c, mean_ k s c phi <= mean_ k s c psi.
Proof.
  intros H. induction k as [|k IH]; intros s c; cbn [mean]; [apply H|].
  pose proof (move_share_range s) as Hp.
  pose proof (IH (propose s)
                (c + (if (propose s =? 1)%Z then 1 else 0))%nat) as H1.
  pose proof (IH s (c + (if (s =? 1)%Z then 1 else 0))%nat) as H2.
  nra.
Qed.

Lemma mean_ext (phi psi : Z -> nat -> Q) :
  (forall x c, phi x c == psi x c) ->
  forall k s c, mean_ k s c phi == mean_ k s c psi.
Proof.
  intros H. induction k as [|k IH]; intros s c; cbn [mean]; [apply H|].
  rewrite !IH. reflexivity.
Qed.

Lemma mean_scale (v : Q) (phi : Z -> nat -> Q) :
  forall k s c, mean_ k s c (fun x c' => v * phi x c') == v * mean_ k s c phi.
Proof.
  induction k as [|k IH]; intros s c; cbn [mean]; [reflexivity|].
  rewrite !IH. ring.
Qed.

Lemma mean_complement (phi : Z -> nat -> Q) :
  forall k s c, mean_ k s c (fun x c' => 1 - phi x c') == 1 - mean_ k s c phi.
Proof.
  induction k as [|k IH]; intros s c; cbn [mean]; [reflexivity|].
  rewrite !IH. ring.
Qed.

End Mean.

(** ** The second moment of the centred count *)

Section Arithmetic.

Local Open Scope Q_scope.

Lemma weighted_le (p M1 M2 B1 B2 : Q) :
  0 <= p <= 1 -> M1 <= B1 -> M2 <= B2 ->
  p * M1 + (1 - p) * M2 <= p * B1 + (1 - p) * B2.
Proof. intros Hp H1 H2. nra. Qed.

Lemma square_nonneg (x : Q) : 0 <= x * x.
Proof. nra. Qed.

Lemma step_from_fair (p q D C I K M1 M2 : Q) :
  D * (p + q) == 1 -> 0 <= p <= 1 ->
  M1 <= (C + 1 - (I + 1) * (p * D) + (1 - q) * D) *
        (C + 1 - (I + 1) * (p * D) + (1 - q) * D) + K * (D * D * (1 # 4)) ->
  M2 <= (C + 0 - (I + 1) * (p * D) + p * D) * (C + 0 - (I + 1) * (p * D) + p * D) +
        K * (D * D * (1 # 4)) ->
  p * M1 + (1 - p) * M2 <=
  (C - I * (p * D) + p * D) * (C - I * (p * D) + p * D) +
  (K + 1) * (D * D * (1 # 4)).
Proof.
  intros HD Hp H1 H2.
  set (A := C - I * (p * D)).
  assert (E1 : C + 1 - (I + 1) * (p * D) + (1 - q) * D == A + D).
  { unfold A. lra. }
  assert (E2 : C + 0 - (I + 1) * (p * D) + p * D == A).
  { unfold A. ring. }
  rewrite E1 in H1. rewrite E2 in H2.
  eapply Qle_trans; [apply (weighted_le p M1 M2 _ _ Hp H1 H2)|].
  pose proof (square_nonneg (D * (p - (1 # 2)))) as Hsq.
  apply Qle_minus_iff.
  setoid_replace ((A + p * D) * (A + p * D) + (K + 1) * (D * D * (1 # 4)) +
     - (p * ((A + D) * (A + D) + K * (D * D * (1 # 4))) +
        (1 - p) * (A * A + K * (D * D * (1 # 4)))))
    with (D * (p - (1 # 2)) * (D * (p - (1 # 2)))) by ring.
  exact Hsq.
Qed.

Lemma step_from_loaded (p q D C I K M1 M2 : Q) :
  D * (p + q) == 1 -> 0 <= q <= 1 ->
  M1 <= (C + 0 - (I + 1) * (p * D) + p * D) * (C + 0 - (I + 1) * (p * D) + p * D) +
        K * (D * D * (1 # 4)) ->
  M2 <= (C + 1 - (I + 1) * (p * D) + (1 - q) * D) *
        (C + 1 - (I + 1) * (p * D) + (1 - q) * D) + K * (D * D * (1 # 4)) ->
  q * M1 + (1 - q) * M2 <=
  (C - I * (p * D) + (1 - q) * D) * (C - I * (p * D) + (1 - q) * D) +
  (K + 1) * (D * D * (1 # 4)).
Proof.
  intros HD Hq H1 H2.
  set (A := C - I * (p * D)).
  assert (E1 : C + 1 - (I + 1) * (p * D) + (1 - q) * D == A + D).
  { unfold A. lra. }
  assert (E2 : C + 0 - (I + 1) * (p * D) + p * D == A).
  { unfold A. ring. }
  rewrite E1 in H2. rewrite E2 in H1.
  eapply Qle_trans; [apply (weighted_le q M1 M2 _ _ Hq H1 H2)|].
  pose proof (square_nonneg (D * (q - (1 # 2)))) as Hsq.
  apply Qle_minus_iff.
  setoid_replace ((A + (1 - q) * D) * (A + (1 - q) * D)
     + (K + 1) * (D * D * (1 # 4)) +
     - (q * (A * A + K * (D * D * (1 # 4))) +
        (1 - q) * ((A + D) * (A + D) + K * (D * D * (1 # 4)))))
    with (D * (q - (1 # 2)) * (D * (q - (1 # 2)))) by ring.
  exact Hsq.
Qed.

End Arithmetic.

Section SecondMoment.

Local Open Scope Q_scope.

Variables likelihood_if_fair prior_fair likelihood_if_loaded prior_loaded : Q.
Variable N : nat.

Local Abbreviation share :=
  (move_share likelihood_if_fair prior_fair
     likelihood_if_loaded prior_loaded N).
Local Abbreviation mean_ :=
  (mean likelihood_if_fair prior_fair
     likelihood_if_loaded prior_loaded N).
Local Abbreviation a := (share 0%Z).
Local Abbreviation b := (share 1%Z).

Hypothesis Hab : 0 < a + b.

(** The centred count is a martingale with increments of variance at most
    [1 / (4 (a + b)^2)]: its second moment grows at most linearly. *)
Lemma second_moment (k : nat) :
  forall (s : Z) (c i : nat),
    is_hypothesis s ->
    mean_ k s c (fun x c' => centred a b (i + k) x c' * centred a b (i + k) x c')
    <= centred a b i s c * centred a b i s c
       + inject_Z (Z.of_nat k) * (/ (a + b) * / (a + b) * (1 # 4)).
Proof.
  induction k as [|k IH]; intros s c i Hs.
  - cbn [mean]. rewrite Nat.add_0_r. change (inject_Z (Z.of_nat 0)) with 0.
    lra.
  - cbn [mean].
    replace (i + S k)%nat with (S i + k)%nat by lia.
    pose proof (IH (propose s)
                  (c + (if (propose s =? 1)%Z then 1 else 0))%nat (S i)
                  (propose_hypothesis s)) as H1.
    pose proof (IH s (c + (if (s =? 1)%Z then 1 else 0))%nat (S i) Hs) as H2.
    set (M1 := mean_ k (propose s) _ _) in *.
    set (M2 := mean_ k s _ _) in *.
    clearbody M1 M2.
    pose proof (move_share_range likelihood_if_fair prior_fair
                  likelihood_if_loaded prior_loaded N 0%Z) as Ha.
    pose proof (move_share_range likelihood_if_fair prior_fair
                  likelihood_if_loaded prior_loaded N 1%Z) as Hb.
    assert (HD : / (a + b) * (a + b) == 1) by (field; lra).
    unfold centred, carry, Qdiv in *.
    rewrite inject_nat_succ in *.
    destruct Hs as [-> | ->]; cbn [propose Z.eqb Pos.eqb] in *;
      rewrite !inject_nat_add in H1, H2;
      change (inject_Z (Z.of_nat 1)) with 1 in *;
      change (inject_Z (Z.of_nat 0)) with 0 in *.
    + apply (step_from_fair _ b _ _ _ _ _ _ HD Ha H1 H2).
    + apply (step_from_loaded a _ _ _ _ _ _ _ HD Hb H1 H2).
Qed.

Lemma carry_range (x : Z) : 0 <= carry a b x <= / (a + b).
Proof.
  pose proof (move_share_range likelihood_if_fair prior_fair
                likelihood_if_loaded prior_loaded N 0%Z) as Ha.
  pose proof (move_share_range likelihood_if_fair prior_fair
                likelihood_if_loaded prior_loaded N 1%Z) as Hb.
  assert (HD : 0 < / (a + b)) by (apply Qinv_lt_0_compat; exact Hab).
  unfold carry, Qdiv. destruct (x =? 1)%Z; nra.
Qed.

(** A count whose fraction is not within [eps] of [target] has a large
    centred value. *)
Lemma far_is_large (n : nat) (target eps eta tau : Q) (x : Z) (c : nat) :
  (0 < n)%nat ->
  - eta <= a / (a + b) - target <= eta ->
  0 < tau ->
  tau <= inject_Z (Z.of_nat n) * (eps - eta) - / (a + b) ->
  near n target eps c = false ->
  tau * tau <= centred a b n x c * centred a b n x c.
Proof.
  intros Hn Heta Htau Hle Hfar.
  pose proof (carry_range x) as Hc.
  pose proof (inject_nat_pos n Hn) as Hn'.
  unfold near in Hfar.
  assert (Hfar' : ~ Qabs (inject_Z (Z.of_nat c) / inject_Z (Z.of_nat n)
                          - target) <= eps).
  { intros H. apply Qle_bool_iff in H. congruence. }
  unfold centred.
  set (r := inject_Z (Z.of_nat c) / inject_Z (Z.of_nat n)) in *.
  assert (Hr : inject_Z (Z.of_nat c) == inject_Z (Z.of_nat n) * r).
  { unfold r. field. lra. }
  rewrite Hr.
  set (n' := inject_Z (Z.of_nat n)) in *.
  set (pi' := a / (a + b)) in *.
  set (k := carry a b x) in *.
  set (D := / (a + b)) in *.
  clearbody n' pi' k D r.
  assert (Hcase : eps < r - target \/ r - target < - eps).
  { destruct (Qlt_le_dec eps (r - target)) as [H|H]; [left; exact H|].
    destruct (Qlt_le_dec (r - target) (- eps)) as [H'|H']; [right; exact H'|].
    exfalso. apply Hfar'. apply Qabs_Qle_condition. split; assumption. }
  destruct Hcase as [H|H].
  - assert (Hbig : tau <= n' * r - n' * pi' + k) by nra.
    nra.
  - assert (Hbig : n' * r - n' * pi' + k <= - tau) by nra.
    nra.
Qed.

(** Chebyshev: the chance that the fraction of loaded samples after [n]
    passes is not within [eps] of [target]. *)
Lemma far_is_rare (n : nat) (target eps eta tau delta : Q) (s0 : Z) :
  (0 < n)%nat ->
  is_hypothesis s0 ->
  - eta <= a / (a + b) - target <= eta ->
  0 < tau ->
  tau <= inject_Z (Z.of_nat n) * (eps - eta) - / (a + b) ->
  / (a + b) * / (a + b) * (1 + inject_Z (Z.of_nat n) * (1 # 4))
  <= delta * (tau * tau) ->
  1 - delta
  <= mean_ n s0 0 (fun _ c => if near n target eps c then 1 else 0).
Proof.
  intros Hn Hs Heta Htau Hle Hdelta.
  set (sq := fun (x : Z) (c : nat) => centred a b n x c * centred a b n x c).
  assert (Hbad : mean_ n s0 0 (fun _ c => 1 - (if near n target eps c then 1 else 0))
                 <= / (tau * tau) * mean_ n s0 0 sq).
  { rewrite <- mean_scale. apply mean_mono. intros x c.
    assert (Ht2 : 0 < tau * tau) by nra.
    assert (Hi : 0 < / (tau * tau)) by (apply Qinv_lt_0_compat; exact Ht2).
    destruct (near n target eps c) eqn:E.
    - unfold sq. pose proof (square_nonneg (centred a b n x c)). nra.
    - pose proof (far_is_large n target eps eta tau x c Hn Heta Htau Hle E)
        as Hl. fold (sq x c) in Hl.
      assert (H1 : / (tau * tau) * (tau * tau) == 1) by (field; lra).
      nra. }
  rewrite mean_complement in Hbad.
  pose proof (second_moment n s0 0 0 Hs) as Hm.
  rewrite Nat.add_0_l in Hm. fold sq in Hm.
  pose proof (carry_range s0) as Hc.
  unfold centred in Hm.
  change (inject_Z (Z.of_nat 0)) with 0 in Hm.
  set (M := mean_ n s0 0 sq) in *.
  set (G := mean_ n s0 0 _) in *.
  set (k := carry a b s0) in *.
  set (D := / (a + b)) in *.
  set (n' := inject_Z (Z.of_nat n)) in *.
  assert (HD : 0 < D) by (apply Qinv_lt_0_compat; exact Hab).
  assert (Hk : k * k <= D * D) by nra.
  assert (HM : M <= delta * (tau * tau)) by nra.
  assert (Ht2 : 0 < tau * tau) by nra.
  assert (Hi : 0 < / (tau * tau)) by (apply Qinv_lt_0_compat; exact Ht2).
  assert (H1 : / (tau * tau) * (tau * tau) == 1) by (field; lra).
  clearbody M G k D n'.
  assert (HMi : / (tau * tau) * M <= delta).
  { setoid_replace delta with (/ (tau * tau) * (delta * (tau * tau)))
      by (field; lra).
    apply Qmult_le_l; assumption. }
  lra.
Qed.

End SecondMoment.

(** ** The probability of ending near a target, as a mean *)

Section Probability.

Variables likelihood_if_fair prior_fair likelihood_if_loaded prior_loaded : Q.
Variable N : nat.

Local Abbreviation run :=
  (iterate likelihood_if_fair prior_fair
     likelihood_if_loaded prior_loaded).
Local Abbreviation mean_ :=
  (mean likelihood_if_fair prior_fair
     likelihood_if_loaded prior_loaded N).
Local Abbreviation prob :=
  (prob_within likelihood_if_fair prior_fair
     likelihood_if_loaded prior_loaded N).

(** Cell 5 on the trace of a run of [n] passes. *)
Lemma within_loaded (uniform : nat -> Q) (n : nat) (s0 : Z)
  (target eps : Q) :
  (0 < n)%nat ->
  (if within p_loaded target eps (run uniform n (mk_loop_state s0 [] 0))
   then 1 else 0)%Q
  = observe (fun _ c => if near n target eps c then 1 else 0)%Q
      (run uniform n (mk_loop_state s0 [] 0)).
Proof.
  intros Hn.
  destruct (iterate_returns likelihood_if_fair prior_fair
              likelihood_if_loaded prior_loaded uniform n
              (mk_loop_state s0 [] 0)) as (fin & -> & Hlen).
  cbn [thetas length Nat.add] in Hlen.
  cbn [within observe]. unfold p_loaded.
  rewrite np_mean_map by (intros E; rewrite E in Hlen; cbn in Hlen; lia).
  rewrite Hlen. reflexivity.
Qed.

Lemma prob_within_mean (iterations s0 : Z) (target eps : Q) :
  (0 < N)%nat ->
  0 < iterations ->
  (prob iterations s0 p_loaded target eps
   == mean_ (Z.to_nat iterations) s0 0
        (fun _ c => if near (Z.to_nat iterations) target eps c
                    then 1 else 0))%Q.
Proof.
  intros HN Hn. unfold prob_within. cbv zeta.
  rewrite total_filter.
  rewrite (total_ext _
    (fun l => observe
       (fun _ c => if near (Z.to_nat iterations) target eps c then 1 else 0)%Q
       (run (draws_of N l) (Z.to_nat iterations) (mk_loop_state s0 [] 0)))).
  - rewrite (total_runs _ _ _ _ N _ (Z.to_nat iterations) HN
               (Z.to_nat iterations) s0 []) by lia.
    change (count_loaded []) with 0%nat.
    field. intros H.
    pose proof (inject_nat_pos _ (streams_nonempty N (Z.to_nat iterations) HN)).
    lra.
  - intros l _. unfold mcmc. rewrite within_loaded by lia. reflexivity.
Qed.

(** On a trace of flags, the fraction of fair samples is near [target]
    when the fraction of loaded ones is near [1 - target]. *)
Lemma within_fair (fin : loop_state) (target eps : Q) :
  Forall is_hypothesis (thetas fin) ->
  within p_fair target eps (Ok fin)
  = within p_loaded (1 - target) eps (Ok fin).
Proof.
  intros Hflags. cbn [within]. unfold p_fair, p_loaded.
  destruct (thetas fin) as [|x t] eqn:E; [reflexivity|].
  rewrite !np_mean_map by discriminate.
  destruct (count_flags (x :: t)) as [_ Hiff].
  apply Hiff in Hflags.
  set (c1 := length (filter (fun theta => theta =? 1) (x :: t))) in *.
  set (c0 := length (filter (fun theta => theta =? 0) (x :: t))) in *.
  set (n := length (x :: t)) in *.
  assert (Hn : (0 < n)%nat) by (unfold n; cbn; lia).
  clearbody c1 c0 n.
  apply Qleb_comp; [|reflexivity].
  rewrite <- Qabs_opp. apply Qabs_wd.
  pose proof (inject_nat_pos n Hn).
  assert (Hsum : (inject_Z (Z.of_nat c1) + inject_Z (Z.of_nat c0)
                  == inject_Z (Z.of_nat n))%Q).
  { rewrite <- inject_nat_add, Hflags. reflexivity. }
  setoid_replace (inject_Z (Z.of_nat c0))
    with (inject_Z (Z.of_nat n) - inject_Z (Z.of_nat c1))%Q by lra.
  field. lra.
Qed.

Lemma prob_within_fair (iterations s0 : Z) (target eps : Q) :
  is_hypothesis s0 ->
  prob iterations s0 p_fair target eps
  = prob iterations s0 p_loaded (1 - target)%Q eps.
Proof.
  intros Hs. unfold prob_within. cbv zeta.
  f_equal. f_equal. f_equal. f_equal.
  apply filter_ext. intros l. unfold mcmc.
  destruct (iterate_returns likelihood_if_fair prior_fair
              likelihood_if_loaded prior_loaded (draws_of N l)
              (Z.to_nat iterations) (mk_loop_state s0 [] 0))
    as (fin & Hrun & _).
  rewrite Hrun. apply within_fair.
  apply (iterate_hypothesis _ _ _ _ _ _ (mk_loop_state s0 [] 0) fin Hs
           (Forall_nil _) Hrun).
Qed.

End Probability.

(** ** The share of the grid that is accepted *)

Section Shares.

Local Open Scope Q_scope.

Variable N : nat.
Hypothesis HN : (0 < N)%nat.

Lemma grid_le (j : nat) (alpha : Q) :
  Qle_bool (grid N j) alpha = true
  <-> inject_Z (Z.of_nat j) <= alpha * inject_Z (Z.of_nat N).
Proof.
  pose proof (inject_nat_pos N HN) as HN'.
  rewrite Qle_bool_iff. unfold grid.
  set (J := inject_Z (Z.of_nat j)). set (M := inject_Z (Z.of_nat N)) in *.
  split; intros H.
  - setoid_replace J with (J / M * M) by (field; lra).
    apply Qmult_le_compat_r; [exact H | lra].
  - apply Qle_shift_div_r; assumption.
Qed.

(** Of the first [M] grid values, those not above [alpha] are all of them
    or at least [alpha * N], and at most [alpha * N + 1]. *)
Lemma accepted_count (alpha : Q) (M : nat) :
  0 <= alpha ->
  inject_Z (Z.of_nat (length (filter
     (fun j => le_alpha (grid N j) (Ok alpha)) (seq 0 M))))
  <= alpha * inject_Z (Z.of_nat N) + 1 /\
  (length (filter (fun j => le_alpha (grid N j) (Ok alpha)) (seq 0 M)) = M \/
   alpha * inject_Z (Z.of_nat N)
   <= inject_Z (Z.of_nat (length (filter
        (fun j => le_alpha (grid N j) (Ok alpha)) (seq 0 M))))).
Proof.
  intros Ha. pose proof (inject_nat_pos N HN) as HN'.
  induction M as [|M [IHu IHl]].
  - cbn [seq filter length]. change (inject_Z (Z.of_nat 0)) with 0.
    split; [nra | left; reflexivity].
  - rewrite seq_S, filter_app, length_app. cbn [Nat.add filter].
    set (c := length (filter _ (seq 0 M))) in *.
    assert (Hc : (c <= M)%nat).
    { unfold c. etransitivity; [apply filter_length_le|].
      rewrite length_seq. reflexivity. }
    cbn [le_alpha].
    destruct (Qle_bool (grid N M) alpha) eqn:E; cbn [length].
    + apply grid_le in E.
      pose proof (inject_nat_le c M Hc) as Hc'.
      rewrite inject_nat_add. change (inject_Z (Z.of_nat 1)) with 1.
      split; [lra|].
      destruct IHl as [IHl|IHl]; [left; lia | right; lra].
    + rewrite Nat.add_0_r. split; [exact IHu|]. right.
      destruct IHl as [IHl|IHl]; [|exact IHl].
      rewrite IHl.
      destruct (Qlt_le_dec (alpha * inject_Z (Z.of_nat N))
                  (inject_Z (Z.of_nat M))) as [H|H]; [lra|].
      apply grid_le in H. congruence.
Qed.

Lemma accept_share_near (alpha : Q) :
  0 <= alpha <= 1 ->
  alpha <= accept_share N (Ok alpha)
  <= alpha + 1 / inject_Z (Z.of_nat N).
Proof.
  intros [Ha Ha']. pose proof (inject_nat_pos N HN) as HN'.
  destruct (accepted_count alpha N Ha) as [Hu Hl].
  unfold accept_share.
  set (c := length (filter _ (seq 0 N))) in *.
  split.
  - apply Qle_shift_div_l; [exact HN'|].
    destruct Hl as [-> | Hl]; [nra | exact Hl].
  - apply Qle_shift_div_r; [exact HN'|].
    setoid_replace ((alpha + 1 / inject_Z (Z.of_nat N))
                    * inject_Z (Z.of_nat N))
      with (alpha * inject_Z (Z.of_nat N) + 1) by (field; lra).
    exact Hu.
Qed.

Variables likelihood_if_fair prior_fair likelihood_if_loaded prior_loaded : Q.

Local Abbreviation share :=
  (move_share likelihood_if_fair prior_fair
     likelihood_if_loaded prior_loaded N).

(** The probability of a move is min(1, alpha) up to one grid value. *)
Lemma move_share_near (s : Z) (alpha : Q) :
  get_alpha (propose s) likelihood_if_fair prior_fair
    likelihood_if_loaded prior_loaded = Ok alpha ->
  0 <= alpha ->
  Qmin 1 alpha <= share s <= Qmin 1 alpha + 1 / inject_Z (Z.of_nat N).
Proof.
  intros Halpha Hpos. pose proof (inject_nat_pos N HN) as HN'.
  assert (Hh : 0 < 1 / inject_Z (Z.of_nat N)).
  { apply Qlt_shift_div_l; [exact HN' | lra]. }
  unfold move_share. rewrite Halpha. cbn [ge_1].
  destruct (Qle_bool 1 alpha) eqn:E.
  - apply Qle_bool_iff in E. rewrite (Q.min_l _ _ E). lra.
  - assert (Hlt : alpha < 1).
    { destruct (Qlt_le_dec alpha 1) as [H|H]; [exact H|].
      apply Qle_bool_iff in H. congruence. }
    rewrite Q.min_r by lra.
    apply accept_share_near. lra.
Qed.

End Shares.

(** ** The stationary share of the grid chain and the posterior *)

Section Stationary.

Local Open Scope Q_scope.

(** Two chains whose move probabilities differ by at most [h] have
    stationary shares that differ by at most [h], when the smaller ones
    sum to at least 1. *)
Lemma stationary_close (a b a' b' h : Q) :
  0 < a' <= 1 -> 0 < b' <= 1 -> 1 <= a' + b' ->
  a' <= a <= a' + h -> b' <= b <= b' + h ->
  0 < a + b /\ / (a + b) <= 1 /\
  - h <= a / (a + b) - a' / (a' + b') <= h.
Proof.
  intros Ha' Hb' Hsum Ha Hb.
  assert (Hh : 0 <= h) by lra.
  assert (Hab : 0 < a + b) by lra.
  assert (Hab' : 0 < a' + b') by lra.
  split; [exact Hab|]. split.
  - rewrite <- (Qmult_1_l (/ (a + b))). apply Qle_shift_div_r; lra.
  - set (E := / ((a + b) * (a' + b'))).
    assert (HE : 0 < E <= 1).
    { assert (Hprod : 1 <= (a + b) * (a' + b')) by nra.
      split.
      - apply Qinv_lt_0_compat. lra.
      - unfold E. rewrite <- (Qmult_1_l (/ _)).
        apply Qle_shift_div_r; lra. }
    setoid_replace (a / (a + b) - a' / (a' + b'))
      with ((a * b' - a' * b) * E) by (unfold E; field; split; lra).
    assert (Hnum : - h <= a * b' - a' * b <= h) by nra.
    clearbody E. nra.
Qed.

Lemma min_ratios (gf gl : Q) :
  0 < gf -> 0 < gl ->
  0 < Qmin 1 (gl / gf) <= 1 /\ 0 < Qmin 1 (gf / gl) <= 1 /\
  1 <= Qmin 1 (gl / gf) + Qmin 1 (gf / gl) /\
  Qmin 1 (gl / gf) / (Qmin 1 (gl / gf) + Qmin 1 (gf / gl))
  == gl / (gf + gl).
Proof.
  intros Hf Hl.
  assert (H1 : 0 < gl / gf) by (apply Qlt_shift_div_l; lra).
  assert (H2 : 0 < gf / gl) by (apply Qlt_shift_div_l; lra).
  destruct (Qlt_le_dec gl gf) as [H|H].
  - rewrite (min_ratio_down gl gf Hf) by lra.
    rewrite (min_ratio_up gl gf Hl) by lra.
    assert (H3 : gl / gf <= 1) by (apply Qle_shift_div_r; lra).
    repeat split; try lra. field. split; lra.
  - rewrite (min_ratio_up gf gl Hf H).
    rewrite (min_ratio_down gf gl Hl H).
    assert (H3 : gf / gl <= 1) by (apply Qle_shift_div_r; lra).
    repeat split; try lra. field. split; lra.
Qed.

End Stationary.

(** ** Concentration of the empirical posterior *)

Section Concentration.

Local Open Scope Q_scope.

Variables likelihood_if_fair prior_fair likelihood_if_loaded prior_loaded : Q.

Local Abbreviation gf := (likelihood_if_fair * prior_fair).
Local Abbreviation gl := (likelihood_if_loaded * prior_loaded).
Local Abbreviation share N :=
  (move_share likelihood_if_fair prior_fair
     likelihood_if_loaded prior_loaded N).
Local Abbreviation prob :=
  (prob_within likelihood_if_fair prior_fair
     likelihood_if_loaded prior_loaded).

(** The bound of [far_is_rare] for the runs of the loop. *)
Lemma prob_within_bound (N : nat) (iterations s0 : Z)
  (target eps eta tau delta : Q) :
  (0 < N)%nat ->
  (0 < iterations)%Z ->
  is_hypothesis s0 ->
  0 < share N 0%Z + share N 1%Z ->
  - eta <= share N 0%Z / (share N 0%Z + share N 1%Z) - target <= eta ->
  0 < tau ->
  tau <= inject_Z iterations * (eps - eta) - / (share N 0%Z + share N 1%Z) ->
  / (share N 0%Z + share N 1%Z) * / (share N 0%Z + share N 1%Z)
  * (1 + inject_Z iterations * (1 # 4))
  <= delta * (tau * tau) ->
  1 - delta <= prob N iterations s0 p_loaded target eps.
Proof.
  intros HN Hn Hs Hab Heta Htau Hle Hdelta.
  rewrite prob_within_mean by assumption.
  assert (E : Z.of_nat (Z.to_nat iterations) = iterations) by lia.
  apply (far_is_rare _ _ _ _ N Hab (Z.to_nat iterations)
           target eps eta tau delta s0);
    try assumption; try lia; rewrite E; assumption.
Qed.

Hypothesis gf_pos : 0 < gf.
Hypothesis gl_pos : 0 < gl.

(** With positive products the grid chain has the posterior of cell 2 as
    its stationary distribution, up to one grid value. *)
Lemma stationary_near_posterior (N : nat) :
  (0 < N)%nat ->
  0 < share N 0%Z + share N 1%Z /\
  / (share N 0%Z + share N 1%Z) <= 1 /\
  - (1 / inject_Z (Z.of_nat N))
  <= share N 0%Z / (share N 0%Z + share N 1%Z) - gl / (gf + gl)
  <= 1 / inject_Z (Z.of_nat N).
Proof.
  intros HN.
  assert (H1 : 0 < gl / gf) by (apply Qlt_shift_div_l; lra).
  assert (H2 : 0 < gf / gl) by (apply Qlt_shift_div_l; lra).
  pose proof (move_share_near N HN likelihood_if_fair prior_fair
                likelihood_if_loaded prior_loaded 0%Z (gl / gf)) as Ha.
  pose proof (move_share_near N HN likelihood_if_fair prior_fair
                likelihood_if_loaded prior_loaded 1%Z (gf / gl)) as Hb.
  cbn [propose Z.eqb Pos.eqb] in Ha, Hb.
  rewrite get_alpha_1 in Ha by lra. rewrite get_alpha_0 in Hb by lra.
  specialize (Ha eq_refl (Qlt_le_weak _ _ H1)).
  specialize (Hb eq_refl (Qlt_le_weak _ _ H2)).
  destruct (min_ratios gf gl gf_pos gl_pos) as (Ha' & Hb' & Hsum & Hpi).
  rewrite <- Hpi.
  apply stationary_close; assumption.
Qed.

End Concentration.

(** Every rational is below some count. *)
Lemma nat_above (x : Q) :
  exists n0 : nat, forall n : nat, (n0 <= n)%nat ->
    (x <= inject_Z (Z.of_nat n))%Q.
Proof.
  exists (Z.to_nat (Qceiling x)). intros n Hn.
  apply Qle_trans with (inject_Z (Qceiling x)); [apply Qle_ceiling|].
  rewrite <- Zle_Qle. lia.
Qed.

Section Limit.

Local Open Scope Q_scope.

Variables likelihood_if_fair prior_fair likelihood_if_loaded prior_loaded : Q.

Local Abbreviation gf := (likelihood_if_fair * prior_fair).
Local Abbreviation gl := (likelihood_if_loaded * prior_loaded).
Local Abbreviation prob :=
  (prob_within likelihood_if_fair prior_fair
     likelihood_if_loaded prior_loaded).

Hypothesis gf_pos : 0 < gf.
Hypothesis gl_pos : 0 < gl.

(** Both fractions of cell 5 are within [eps] of the posterior with
    probability at least [1 - delta], once the run has
    [4 + 4 / eps + 8 / (delta * eps^2)] passes and the grid a spacing of at
    most [eps / 2]. *)
Lemma prob_within_rate (eps delta : Q) (n N : nat) (s0 : Z) :
  0 < eps -> 0 < delta ->
  4 + 4 / eps + 8 / (delta * (eps * eps)) <= inject_Z (Z.of_nat n) ->
  2 <= eps * inject_Z (Z.of_nat N) ->
  is_hypothesis s0 ->
  1 - delta <= prob N (Z.of_nat n) s0 p_loaded (gl / (gf + gl)) eps /\
  1 - delta <= prob N (Z.of_nat n) s0 p_fair (gf / (gf + gl)) eps.
Proof.
  intros Heps Hdelta Hn0 HN0 Hs.
  set (u := 4 / eps) in *. set (v := 8 / (delta * (eps * eps))) in *.
  assert (Hu : u * eps == 4) by (unfold u; field; lra).
  assert (Hee : 0 < eps * eps) by nra.
  assert (Hde : 0 < delta * (eps * eps)) by nra.
  assert (Hv : v * (delta * (eps * eps)) == 8) by (unfold v; field; lra).
  assert (Hu0 : 0 < u) by (unfold u; apply Qlt_shift_div_l; lra).
  assert (Hv0 : 0 < v) by (unfold v; apply Qlt_shift_div_l; lra).
  assert (HNpos : (0 < N)%nat).
  { destruct N; [|lia]. change (inject_Z (Z.of_nat 0)) with 0 in HN0. lra. }
  assert (Hnpos : (0 < Z.of_nat n)%Z).
  { destruct n; [|lia]. change (inject_Z (Z.of_nat 0)) with 0 in Hn0. lra. }
  destruct (stationary_near_posterior likelihood_if_fair prior_fair
              likelihood_if_loaded prior_loaded gf_pos gl_pos N HNpos)
    as (Hab & HD & Hpi).
  set (a := move_share _ _ _ _ N 0%Z) in *.
  set (b := move_share _ _ _ _ N 1%Z) in *.
  set (X := inject_Z (Z.of_nat n)) in *.
  set (h := 1 / inject_Z (Z.of_nat N)) in *.
  assert (Hh : 0 < h <= eps * (1 # 2)).
  { pose proof (inject_nat_pos N HNpos) as HN'. unfold h. split.
    - apply Qlt_shift_div_l; lra.
    - apply Qle_shift_div_r; [exact HN' | lra]. }
  assert (HDpos : 0 < / (a + b)) by (apply Qinv_lt_0_compat; exact Hab).
  assert (Htau : 0 < X * eps * (1 # 4)) by nra.
  assert (Hle : X * eps * (1 # 4)
                <= X * (eps - h) - / (a + b)) by nra.
  assert (Hvar : / (a + b) * / (a + b) * (1 + X * (1 # 4))
                 <= delta * (X * eps * (1 # 4) * (X * eps * (1 # 4)))).
  { assert (HDD : / (a + b) * / (a + b) <= 1) by nra.
    assert (H8 : 8 <= X * (delta * (eps * eps))) by nra.
    assert (Hhalf : 1 + X * (1 # 4) <= X * (1 # 2)) by lra.
    assert (Hfin : X * (1 # 2)
                   <= delta * (X * eps * (1 # 4) * (X * eps * (1 # 4)))).
    { setoid_replace (delta * (X * eps * (1 # 4) * (X * eps * (1 # 4))))
        with (X * (1 # 16) * (X * (delta * (eps * eps)))) by ring.
      nra. }
    set (D2 := / (a + b) * / (a + b)) in *.
    assert (HD2 : 0 <= D2) by (unfold D2; nra).
    clearbody D2. nra. }
  split.
  - apply (prob_within_bound _ _ _ _ N (Z.of_nat n) s0 _ eps h
             (X * eps * (1 # 4)) delta); assumption.
  - rewrite prob_within_fair by exact Hs.
    apply (prob_within_bound _ _ _ _ N (Z.of_nat n) s0 _ eps h
             (X * eps * (1 # 4)) delta); try assumption.
    fold a b.
    setoid_replace (1 - gf / (gf + gl)) with (gl / (gf + gl))
      by (field; lra).
    exact Hpi.
Qed.

(** Convergence in probability, on every grid whose spacing is at most
    half the tolerance. *)
Lemma prob_within_limit (eps delta : Q) :
  0 < eps -> 0 < delta ->
  exists n0 : nat, forall (n N : nat) (s0 : Z),
    (n0 <= n)%nat ->
    2 <= eps * inject_Z (Z.of_nat N) ->
    is_hypothesis s0 ->
    1 - delta <= prob N (Z.of_nat n) s0 p_loaded (gl / (gf + gl)) eps /\
    1 - delta <= prob N (Z.of_nat n) s0 p_fair (gf / (gf + gl)) eps.
Proof.
  intros Heps Hdelta.
  destruct (nat_above (4 + 4 / eps + 8 / (delta * (eps * eps))))
    as [n0 Hn0].
  exists n0. intros n N s0 Hn HN Hs.
  apply prob_within_rate; auto.
Qed.

End Limit.

(** ** The notebook's run of 10000 passes *)

Section NotebookRun.

Import Notebook.

Local Open Scope Q_scope.

Local Abbreviation nb_share N :=
  (move_share likelihood_if_fair prior_fair
     likelihood_if_loaded prior_loaded N).
Local Abbreviation nb_prob :=
  (prob_within likelihood_if_fair prior_fair
     likelihood_if_loaded prior_loaded).

(** On a grid of at least 10000 values a fair state moves with probability
    0.63504 up to 0.0001, and a loaded state always moves. *)
Lemma notebook_shares (N : nat) :
  (10000 <= Z.of_nat N)%Z ->
  0.63504 <= nb_share N 0%Z <= 0.63514 /\ nb_share N 1%Z == 1.
Proof.
  intros HN.
  assert (HN' : (0 < N)%nat) by lia.
  assert (HNq : 10000 <= inject_Z (Z.of_nat N)).
  { change 10000 with (inject_Z 10000). rewrite <- Zle_Qle. exact HN. }
  assert (Hh : 1 / inject_Z (Z.of_nat N) <= 0.0001).
  { apply Qle_shift_div_r; lra. }
  pose proof (move_share_near N HN' likelihood_if_fair prior_fair
                likelihood_if_loaded prior_loaded 0%Z
                (likelihood_if_loaded * prior_loaded
                 / (likelihood_if_fair * prior_fair))) as Ha.
  pose proof (move_share_near N HN' likelihood_if_fair prior_fair
                likelihood_if_loaded prior_loaded 1%Z
                (likelihood_if_fair * prior_fair
                 / (likelihood_if_loaded * prior_loaded))) as Hb.
  pose proof (move_share_range likelihood_if_fair prior_fair
                likelihood_if_loaded prior_loaded N 1%Z) as Hb1.
  cbn [propose Z.eqb Pos.eqb] in Ha, Hb.
  rewrite get_alpha_1 in Ha by nonzero.
  rewrite get_alpha_0 in Hb by nonzero.
  specialize (Ha eq_refl). specialize (Hb eq_refl).
  assert (Ea : likelihood_if_loaded * prior_loaded
               / (likelihood_if_fair * prior_fair) == 0.63504)
    by reflexivity.
  assert (Eb : 1 <= likelihood_if_fair * prior_fair
                    / (likelihood_if_loaded * prior_loaded)).
  { apply Qle_bool_iff. vm_compute. reflexivity. }
  rewrite Ea in Ha. rewrite Q.min_r in Ha by lra.
  rewrite (Q.min_l _ _ Eb) in Hb.
  assert (H0 : 0 <= 0.63504) by lra.
  specialize (Ha H0).
  assert (H1 : 0 <= likelihood_if_fair * prior_fair
                    / (likelihood_if_loaded * prior_loaded)) by lra.
  specialize (Hb H1).
  split; [lra|]. apply Qle_antisym; lra.
Qed.

(** The figure of cell 5: with probability at least 0.97 the empirical
    posterior of 10000 passes is within 0.02 of the analytical one. *)
Lemma notebook_within (N : nat) (s0 : Z) :
  (10000 <= Z.of_nat N)%Z ->
  is_hypothesis s0 ->
  0.97 <= nb_prob N 10000%Z s0 p_loaded 0.38839 0.02 /\
  0.97 <= nb_prob N 10000%Z s0 p_fair 0.61161 0.02.
Proof.
  intros HN Hs.
  destruct (notebook_shares N HN) as [Ha Hb].
  assert (HN' : (0 < N)%nat) by lia.
  set (a := nb_share N 0%Z) in *.
  set (b := nb_share N 1%Z) in *.
  assert (Hab : 0 < a + b) by lra.
  assert (Hpi : 0.38839 <= a / (a + b) <= 0.38844).
  { split.
    - apply Qle_shift_div_l; lra.
    - apply Qle_shift_div_r; lra. }
  assert (HD : 0 < / (a + b) <= 0.6117).
  { split.
    - apply Qinv_lt_0_compat. exact Hab.
    - rewrite <- (Qmult_1_l (/ (a + b))). apply Qle_shift_div_r; lra. }
  assert (Hn : inject_Z 10000 == 10000) by reflexivity.
  assert (Hle : 198 <= inject_Z 10000 * (0.02 - 0.00005) - / (a + b)).
  { rewrite Hn. lra. }
  assert (Hvar : / (a + b) * / (a + b) * (1 + inject_Z 10000 * (1 # 4))
                 <= 0.03 * (198 * 198)).
  { rewrite Hn. set (D := / (a + b)) in *. clearbody D.
    assert (HDD : D * D <= 0.6117 * 0.6117) by nra.
    lra. }
  assert (H97 : 0.97 == 1 - 0.03) by reflexivity.
  rewrite H97.
  split.
  - apply (prob_within_bound _ _ _ _ N 10000%Z s0 _ 0.02 0.00005 198 0.03);
      try assumption; try lia; try lra.
    fold a b. lra.
  - rewrite prob_within_fair by exact Hs.
    apply (prob_within_bound _ _ _ _ N 10000%Z s0 _ 0.02 0.00005 198 0.03);
      try assumption; try lia; try lra.
    fold a b. lra.
Qed.

End NotebookRun.

(** ** A coarse grid *)

(** On a grid of 10 values the test [u <= 0.63504] passes for the seven
    values 0, 0.1, ..., 0.6: a move from fair has probability 0.7, which is
    min(1, alpha) up to one grid value. *)
Example share_on_ten_values :
  (move_share Notebook.likelihood_if_fair Notebook.prior_fair
     Notebook.likelihood_if_loaded Notebook.prior_loaded 10 0 == 0.7)%Q.
Proof. vm_compute. reflexivity. Qed.

Section CoarseGrid.

Import Notebook.

Local Open Scope Q_scope.

Local Abbreviation nb_share N :=
  (move_share likelihood_if_fair prior_fair
     likelihood_if_loaded prior_loaded N).
Local Abbreviation nb_mean N :=
  (mean likelihood_if_fair prior_fair
     likelihood_if_loaded prior_loaded N).
Local Abbreviation nb_prob :=
  (prob_within likelihood_if_fair prior_fair
     likelihood_if_loaded prior_loaded).

(** A fraction cannot be within 0.01 of both 0.38839 and 7/17. *)
Lemma near_one_of_two (n c : nat) :
  (if near n 0.38839 0.01 c then 1 else 0)
  <= 1 - (if near n (7 # 17) 0.01 c then 1 else 0).
Proof.
  unfold near.
  set (r := inject_Z (Z.of_nat c) / inject_Z (Z.of_nat n)). clearbody r.
  destruct (Qle_bool (Qabs (r - 0.38839)) 0.01) eqn:E1;
    destruct (Qle_bool (Qabs (r - (7 # 17))) 0.01) eqn:E2; try lra.
  apply Qle_bool_iff, Qabs_Qle_condition in E1.
  apply Qle_bool_iff, Qabs_Qle_condition in E2.
  lra.
Qed.

(** The grid has to be fine.  On a grid of 10 values a fair state moves
    with probability 0.7 and the fraction of loaded samples settles at
    0.7 / 1.7 = 7/17, about 0.412: the probability that it is within 0.01
    of the posterior 0.38839 tends to 0 as the run gets longer. *)
Lemma coarse_grid_misses (delta : Q) :
  0 < delta ->
  exists n0 : nat, forall (n : nat) (s0 : Z),
    (n0 <= n)%nat -> is_hypothesis s0 ->
    nb_prob 10%nat (Z.of_nat n) s0 p_loaded 0.38839 0.01 <= delta.
Proof.
  intros Hdelta.
  set (v := 20000 / delta).
  assert (Hv : v * delta == 20000) by (unfold v; field; lra).
  assert (Hv0 : 0 < v) by (unfold v; apply Qlt_shift_div_l; lra).
  destruct (nat_above (200 + v)) as [n0 Hn0].
  exists n0. intros n s0 Hn Hs. specialize (Hn0 n Hn).
  assert (Hnpos : (0 < n)%nat).
  { destruct n; [|lia]. change (inject_Z (Z.of_nat 0)) with 0 in Hn0. lra. }
  rewrite prob_within_mean by lia.
  rewrite Nat2Z.id.
  eapply Qle_trans.
  { apply mean_mono. intros x c. apply near_one_of_two. }
  rewrite mean_complement.
  assert (Hab : 0 < nb_share 10%nat 0%Z + nb_share 10%nat 1%Z).
  { vm_compute. reflexivity. }
  assert (HD : / (nb_share 10%nat 0%Z + nb_share 10%nat 1%Z) == 10 # 17)
    by (vm_compute; reflexivity).
  assert (Hpi : nb_share 10%nat 0%Z
                / (nb_share 10%nat 0%Z + nb_share 10%nat 1%Z) == 7 # 17)
    by (vm_compute; reflexivity).
  pose proof (far_is_rare likelihood_if_fair prior_fair likelihood_if_loaded
                prior_loaded 10%nat Hab n (7 # 17) 0.01 0
                (inject_Z (Z.of_nat n) * 0.005) delta s0 Hnpos Hs)
    as H.
  set (X := inject_Z (Z.of_nat n)) in *.
  set (M := nb_mean 10%nat n s0 0%nat _) in *. clearbody M.
  rewrite HD, Hpi in H.
  assert (H8 : 20000 <= X * delta) by nra.
  assert (Hgood : 1 - delta <= M).
  { apply H.
    - lra.
    - nra.
    - lra.
    - setoid_replace (delta * (X * 0.005 * (X * 0.005)))
        with (X * (1 # 40000) * (X * delta)) by ring.
      nra. }
  lra.
Qed.

End CoarseGrid.

(** ** The empirical posterior converges *)

(** A grid of 10 values and 4 passes from fair: of the 10000 streams of
    draws, all but the 81 that reject four times (draws 0.7, 0.8 or 0.9
    each time) end with one or two loaded samples. *)
Example four_passes_on_ten_values :
  (prob_within Notebook.likelihood_if_fair Notebook.prior_fair
     Notebook.likelihood_if_loaded Notebook.prior_loaded
     10 4 0 p_loaded 0.38839 0.15 == 0.9919)%Q.
Proof. vm_compute. reflexivity. Qed.

(** C3.  Each call of [np.random.uniform] being uniform on a grid of [N]
    equally spaced values of [0, 1) and the calls independent, the
    fractions of cell 5 converge in probability to the posterior of cell 2:
    for positive products [likelihood * prior], any tolerance [eps] and any
    [delta], every run that is long enough, from either initial state and
    on any grid whose spacing [1 / N] is at most [eps / 2], ends with the
    fraction of samples equal to 1 within [eps] of [posterior_loaded], and
    the fraction equal to 0 within [eps] of [posterior_fair], with
    probability at least [1 - delta].  For the notebook's numbers and its
    10000 passes, on any grid of at least 10000 values (the binary64 draws
    are such a grid) and whatever [randint] returns, the empirical
    P(loaded) is within 0.02 of 0.38839, and the empirical P(fair) within
    0.02 of 0.61161, with probability at least 0.97. *)
Theorem sampler_converges :
  (forall likelihood_if_fair prior_fair likelihood_if_loaded prior_loaded : Q,
     (0 < likelihood_if_fair * prior_fair)%Q ->
     (0 < likelihood_if_loaded * prior_loaded)%Q ->
     exists pi_fair pi_loaded : Q,
       posterior_fair likelihood_if_fair prior_fair
         likelihood_if_loaded prior_loaded = Ok pi_fair /\
       posterior_loaded likelihood_if_fair prior_fair
         likelihood_if_loaded prior_loaded = Ok pi_loaded /\
       forall eps delta : Q,
         (0 < eps)%Q -> (0 < delta)%Q ->
         exists n0 : nat,
           forall (n N : nat) (initial_state : Z),
             (n0 <= n)%nat ->
             (2 <= eps * inject_Z (Z.of_nat N))%Q ->
             is_hypothesis initial_state ->
             (1 - delta
              <= prob_within likelihood_if_fair prior_fair
                   likelihood_if_loaded prior_loaded
                   N (Z.of_nat n) initial_state p_loaded pi_loaded eps)%Q /\
             (1 - delta
              <= prob_within likelihood_if_fair prior_fair
                   likelihood_if_loaded prior_loaded
                   N (Z.of_nat n) initial_state p_fair pi_fair eps)%Q) /\
  (forall (N : nat) (coin : bool),
     10000 <= Z.of_nat N ->
     (0.97 <= prob_within Notebook.likelihood_if_fair Notebook.prior_fair
                Notebook.likelihood_if_loaded Notebook.prior_loaded
                N 10000 (randint_0_2 coin) p_loaded 0.38839 0.02)%Q /\
     (0.97 <= prob_within Notebook.likelihood_if_fair Notebook.prior_fair
                Notebook.likelihood_if_loaded Notebook.prior_loaded
                N 10000 (randint_0_2 coin) p_fair 0.61161 0.02)%Q).
Proof.
  split.
  - intros lf pf ll pl Hf Hl.
    exists (lf * pf / (lf * pf + ll * pl))%Q,
           (ll * pl / (lf * pf + ll * pl))%Q.
    split; [apply posterior_fair_ok; lra|].
    split; [apply posterior_loaded_ok; lra|].
    intros eps delta Heps Hdelta.
    apply prob_within_limit; assumption.
  - intros N coin HN. apply notebook_within; [exact HN|].
    destruct coin; [right | left]; reflexivity.
Qed.

(** The notebook's numbers: a tolerance of 0.02 and a probability of 0.97
    in the limit statement, and a grid of 65536 values from a fair start in
    the statement about the cell. *)
Lemma sampler_converges_witness :
  (exists pi_fair pi_loaded : Q,
     posterior_fair Notebook.likelihood_if_fair Notebook.prior_fair
       Notebook.likelihood_if_loaded Notebook.prior_loaded = Ok pi_fair /\
     posterior_loaded Notebook.likelihood_if_fair Notebook.prior_fair
       Notebook.likelihood_if_loaded Notebook.prior_loaded = Ok pi_loaded /\
     exists n0 : nat,
       forall (n N : nat) (initial_state : Z),
         (n0 <= n)%nat ->
         (2 <= 0.02 * inject_Z (Z.of_nat N))%Q ->
         is_hypothesis initial_state ->
         (1 - 0.03
          <= prob_within Notebook.likelihood_if_fair Notebook.prior_fair
               Notebook.likelihood_if_loaded Notebook.prior_loaded
               N (Z.of_nat n) initial_state p_loaded pi_loaded 0.02)%Q /\
         (1 - 0.03
          <= prob_within Notebook.likelihood_if_fair Notebook.prior_fair
               Notebook.likelihood_if_loaded Notebook.prior_loaded
               N (Z.of_nat n) initial_state p_fair pi_fair 0.02)%Q) /\
  (0.97 <= prob_within Notebook.likelihood_if_fair Notebook.prior_fair
             Notebook.likelihood_if_loaded Notebook.prior_loaded
             (Z.to_nat 65536) 10000 (randint_0_2 false)
             p_loaded 0.38839 0.02)%Q /\
  (0.97 <= prob_within Notebook.likelihood_if_fair Notebook.prior_fair
             Notebook.likelihood_if_loaded Notebook.prior_loaded
             (Z.to_nat 65536) 10000 (randint_0_2 false)
             p_fair 0.61161 0.02)%Q.
Proof.
  split.
  - destruct (proj1 sampler_converges
                Notebook.likelihood_if_fair Notebook.prior_fair
                Notebook.likelihood_if_loaded Notebook.prior_loaded
                eq_refl eq_refl)
      as (pi_fair & pi_loaded & Hfair & Hloaded & Hlimit).
    exists pi_fair, pi_loaded.
    split; [exact Hfair|]. split; [exact Hloaded|].
    apply (Hlimit 0.02%Q 0.03%Q); reflexivity.
  - apply (proj2 sampler_converges (Z.to_nat 65536) false).
    rewrite Z2Nat.id; [discriminate | discriminate].
Defined.
